(** * rrobot: the battle engine of [rrobot/game.py]

    A shallow embedding of class [Game] and of [main]'s outcome message.
    A Python float is rendered as a rational or one of [inf], [-inf] and
    [nan]; the robot dictionaries as records held in a list, a reference to
    one of them being its position in the list; and the engine's side
    effects (mutation of the robot list, notifications sent to the
    controllers, exceptions) as a state-and-exception monad. *)

From Stdlib Require Import ZArith QArith Qround Qabs Lia Lqa DecimalString.
From stdpp Require Import base list strings.

Local Open Scope Z_scope.

(** ** Python values *)

(** The exceptions the engine can raise. *)
Inductive exn :=
  IndexError | KeyError | ValueError | TypeError | OverflowError.

(** A float.  The numbers among the floats are rendered as rationals:
    their arithmetic is exact, except that a result beyond the largest float
    is an infinity; rounding is not rendered. *)
Inductive float := Fin (q : Q) | PInf | NInf | NaN.

(** The largest float, (2^53 - 1) * 2^971. *)
Definition float_max : Q := inject_Z ((2 ^ 53 - 1) * 2 ^ 971).

Definition Qltb (a b : Q) : bool := negb (Qle_bool b a).

(** The float for the exact result [q] of an operation. *)
Definition norm (q : Q) : float :=
  if Qltb float_max q then PInf
  else if Qltb q (- float_max) then NInf
  else Fin q.

(** [a < b], [a <= b] and [a == b] on floats: false when [nan] takes part. *)
Definition flt (a b : float) : bool :=
  match a, b with
  | Fin x, Fin y => Qltb x y
  | Fin _, PInf => true
  | NInf, Fin _ => true
  | NInf, PInf => true
  | _, _ => false
  end.

Definition fle (a b : float) : bool :=
  match a, b with
  | Fin x, Fin y => Qle_bool x y
  | Fin _, PInf => true
  | NInf, Fin _ => true
  | NInf, PInf => true
  | NInf, NInf => true
  | PInf, PInf => true
  | _, _ => false
  end.

Definition feqb (a b : float) : bool :=
  match a, b with
  | Fin x, Fin y => Qeq_bool x y
  | PInf, PInf => true
  | NInf, NInf => true
  | _, _ => false
  end.

(** An infinity times the number [x]. *)
Definition inf_times (positive : bool) (x : Q) : float :=
  if Qeq_bool x 0 then NaN
  else if xorb positive (Qltb 0 x) then NInf else PInf.

(** [a * b] and [a + b] on floats. *)
Definition fmul (a b : float) : float :=
  match a, b with
  | NaN, _ => NaN
  | _, NaN => NaN
  | Fin x, Fin y => norm (x * y)
  | Fin x, PInf => inf_times true x
  | Fin x, NInf => inf_times false x
  | PInf, Fin y => inf_times true y
  | NInf, Fin y => inf_times false y
  | PInf, PInf => PInf
  | NInf, NInf => PInf
  | PInf, NInf => NInf
  | NInf, PInf => NInf
  end.

Definition fadd (a b : float) : float :=
  match a, b with
  | NaN, _ => NaN
  | _, NaN => NaN
  | Fin x, Fin y => norm (x + y)
  | PInf, NInf => NaN
  | NInf, PInf => NaN
  | PInf, _ => PInf
  | _, PInf => PInf
  | NInf, _ => NInf
  | _, NInf => NInf
  end.

(** Python's [min(a, b)]: the first argument unless the second is smaller;
    [min(nan, b)] is [nan]. *)
Definition py_min (a b : float) : float := if flt b a then b else a.

(** Truncation of a number toward zero. *)
Definition trunc (x : Q) : Z := Z.quot (Qnum x) (Z.pos (Qden x)).

(** Python's [int(x)] on a float: [ValueError] for [nan], [OverflowError]
    for an infinity. *)
Definition py_int (x : float) : exn + Z :=
  match x with
  | Fin q => inr (trunc q)
  | NaN => inl ValueError
  | _ => inl OverflowError
  end.

(** [math.degrees(x)], the product of [x] and 180/pi. *)
Definition rad_to_deg : Q := 5729577951308232 # 100000000000000.
Definition py_degrees (x : float) : float := fmul x (Fin rad_to_deg).

(** A point; [pt x y] is the point with the numbers [x] and [y]. *)
Definition point : Type := (float * float)%type.
Definition pt (x y : Q) : point := (Fin x, Fin y).
Arguments pt (x y)%_Q.

(** Equality of two coordinate tuples.  Python takes two items that are one
    object for equal, so that a tuple equals itself even when it holds a
    [nan]; [same] tells that the two tuples are one object. *)
Definition coords_eqb (same : bool) (a b : point) : bool :=
  same || (feqb (fst a) (fst b) && feqb (snd a) (snd b)).

(** [l[i]] for a list of length [n] and an [int] [i]: the position that is
    addressed, a negative index counting from the end. *)
Definition py_index (n : nat) (i : Z) : option nat :=
  if (0 <=? i) && (i <? Z.of_nat n) then Some (Z.to_nat i)
  else if (- Z.of_nat n <=? i) && (i <? 0) then Some (Z.to_nat (Z.of_nat n + i))
  else None.

(** [str.format] of an integer. *)
Definition str_of_Z (z : Z) : string := NilZero.string_of_int (Z.to_int z).

(** Python's [', '.join]. *)
Fixpoint join (sep : string) (l : list string) : string :=
  match l with
  | [] => ""
  | [s] => s
  | s :: rest => s +:+ sep +:+ join sep rest
  end.

(** ** Data model *)

(** A controller object: the engine only uses its class name and its [id]. *)
Record Instance := { class_name : string; id : nat }.

(** One entry of [Game._robots]. *)
Record Robot := {
  instance : Instance;
  coords : point;
  speed : float;
  damage : Z;
  heading : float;
  then_ : option Q
}.

Record Game := { _turn : Z; _robots : list Robot }.

(** The notifications a controller receives, with their argument. *)
Inductive event :=
| started (at_ : point)
| radar_updated (radar : list (string * point))
| attacked (by_ : string)
| bumped (bumper : string).

(** The attributes that the read accessors return. *)
Inductive attr_name := Coords | Damage | Heading | Speed.

(** The calls a controller can make on the engine while it handles one: the
    robot id is any [int], the heading and the speed any float. *)
Inductive command :=
| SetHeading (robot_id : Z) (rads : float)
| SetSpeed (robot_id : Z) (mps : float)
| Attack (robot_id : Z)
| Get (attr : attr_name) (robot_id : Z).

(** [rrobot.settings.settings]; the module is not among the sources, so its
    entries are parameters of the engine, all of them numbers. *)
Record Settings := {
  battlefield_size : Z * Z;
  max_speed : Q;
  attack_angle : Q;
  attack_damage : Z;
  max_turns : Z;
  radar_interval : Q
}.

(** [rrobot.maths], and [math.cos] and [math.sin] on numbers; none of them
    is among the sources, so the engine is parametric in them. *)
Class Maths := {
  cos : Q -> Q;
  sin : Q -> Q;
  seg_intersect : point -> point -> point -> point -> option point;
  is_in_angle : point -> float -> Q -> point -> bool;
  get_inverse_square : point -> point -> Z -> float
}.

(** ** The engine's effects *)

(** What a computation sees and changes: the game, the notifications
    delivered so far (receiver and event, oldest first). *)
Record State := { game : Game; sent : list (nat * event) }.

(** A computation ends normally, with an exception, or is cut off because
    the nesting of controller calls exceeded the allowed depth; each time
    the state reached is kept. *)
Inductive outcome (A : Type) :=
| Ok (a : A) (st : State)
| Raised (e : exn) (st : State)
| Cut (st : State).
Arguments Ok {A} a st.
Arguments Raised {A} e st.
Arguments Cut {A} st.

Definition M (A : Type) : Type := State -> outcome A.

Definition ret {A} (a : A) : M A := fun st => Ok a st.

Definition bind {A B} (m : M A) (k : A -> M B) : M B :=
  fun st =>
    match m st with
    | Ok a st' => k a st'
    | Raised e st' => Raised e st'
    | Cut st' => Cut st'
    end.

Definition raise {A} (e : exn) : M A := fun st => Raised e st.
Definition cut {A} : M A := fun st => Cut st.
Definition get_game : M Game := fun st => Ok (game st) st.
Definition put_game (g : Game) : M unit :=
  fun st => Ok tt {| game := g; sent := sent st |}.

#[global] Instance M_ret : MRet M := @ret.
#[global] Instance M_bind : MBind M := fun A B k m => bind m k.

(** A value, or the exception raised instead. *)
Definition lift {A} (x : exn + A) : M A :=
  match x with inr a => ret a | inl e => raise e end.

(** A [for] loop over a list. *)
Fixpoint for_each {X} (l : list X) (body : X -> M unit) : M unit :=
  match l with
  | [] => ret tt
  | x :: rest => body x ;; for_each rest body
  end.

Definition state_of {A} (o : outcome A) : State :=
  match o with Ok _ st => st | Raised _ st => st | Cut st => st end.

(** [math.cos(x)] and [math.sin(x)]: [ValueError] for an infinity. *)
Definition math_cos {maths : Maths} (x : float) : M float :=
  match x with
  | Fin q => ret (Fin (cos q))
  | NaN => ret NaN
  | _ => raise ValueError
  end.

Definition math_sin {maths : Maths} (x : float) : M float :=
  match x with
  | Fin q => ret (Fin (sin q))
  | NaN => ret NaN
  | _ => raise ValueError
  end.

(** ** Dictionaries that are iterated in insertion order *)

(** The keys of [line_segs]: a border name or a robot id. *)
Inductive seg_id := border (name : string) | robot (i : nat).

Definition seg_id_eqb (a b : seg_id) : bool :=
  match a, b with
  | border s, border t => String.eqb s t
  | robot i, robot j => Nat.eqb i j
  | _, _ => false
  end.

Definition segment : Type := (point * point)%type.

(** [d[k] = v]: overwrite in place, or append a new key. *)
Fixpoint dict_set {V} (k : seg_id) (v : V) (d : list (seg_id * V))
  : list (seg_id * V) :=
  match d with
  | [] => [(k, v)]
  | (k', v') :: rest =>
      if seg_id_eqb k' k then (k', v) :: rest else (k', v') :: dict_set k v rest
  end.

Fixpoint dict_get {V} (k : seg_id) (d : list (seg_id * V)) : option V :=
  match d with
  | [] => None
  | (k', v') :: rest => if seg_id_eqb k' k then Some v' else dict_get k rest
  end.

(** Field updates of a robot dictionary. *)
Definition with_coords (c : point) (r : Robot) : Robot :=
  {| instance := instance r; coords := c; speed := speed r;
     damage := damage r; heading := heading r; then_ := then_ r |}.
Definition with_speed (v : float) (r : Robot) : Robot :=
  {| instance := instance r; coords := coords r; speed := v;
     damage := damage r; heading := heading r; then_ := then_ r |}.
Definition with_damage (d : Z) (r : Robot) : Robot :=
  {| instance := instance r; coords := coords r; speed := speed r;
     damage := d; heading := heading r; then_ := then_ r |}.
Definition with_heading (h : float) (r : Robot) : Robot :=
  {| instance := instance r; coords := coords r; speed := speed r;
     damage := damage r; heading := h; then_ := then_ r |}.
Definition with_then (t : option Q) (r : Robot) : Robot :=
  {| instance := instance r; coords := coords r; speed := speed r;
     damage := damage r; heading := heading r; then_ := t |}.

(** The robots of [rs] with damage below 100, [i] being the position of the
    first one.  A Python list of references to robot dictionaries is
    rendered as the list of their positions in [_robots]: the dictionaries
    are never copied, so what is read through such a list is the robot's
    current record. *)
Fixpoint active_from (i : nat) (rs : list Robot) : list nat :=
  match rs with
  | [] => []
  | r :: rest =>
      if damage r <? 100 then i :: active_from (S i) rest
      else active_from (S i) rest
  end.

(** [(a_id, b_id) = key] for a key of [bumps]: an [int] cannot be unpacked,
    and a [str] unpacks into its characters only when it has two of them. *)
Definition unpack_pair (k : seg_id) : M (string * string) :=
  match k with
  | robot _ => raise TypeError
  | border (String a (String b EmptyString)) =>
      mret (String a EmptyString, String b EmptyString)
  | border _ => raise ValueError
  end.

(** [random.randrange(start, stop)], the outcome being fixed by a raw draw. *)
Definition randrange (raw : Z) (start stop : Z) : option Z :=
  if start <? stop then Some (start + raw mod (stop - start)) else None.

Section Engine.
Context {maths : Maths} (settings : Settings).

(** [loop.time()], as read while the turn counter has a given value. *)
Variable time : Z -> Q.

(** How an event reaches the controller of a robot (and what the
    controller then does to the game). *)
Variable send : nat -> event -> M unit.

(** [Game.__init__]: two draws per robot class. *)
Fixpoint init_robots (robot_id : nat) (robot_classes : list string)
    (draws : list Z) : option (list Robot) :=
  match robot_classes with
  | [] => Some []
  | cls :: rest =>
      let '(x_max, y_max) := battlefield_size settings in
      x_rand ← randrange (nth 0 draws 0) 0 x_max;
      y_rand ← randrange (nth 1 draws 0) 0 y_max;
      robots ← init_robots (S robot_id) rest (drop 2 draws);
      Some ({| instance := {| class_name := cls; id := robot_id |};
               coords := pt (inject_Z x_rand) (inject_Z y_rand);
               speed := Fin 0;
               damage := 0;
               heading := Fin 0;
               then_ := None |} :: robots)
  end.

Definition init (robot_classes : list string) (draws : list Z)
  : option Game :=
  robots ← init_robots 0 robot_classes draws;
  Some {| _turn := 0; _robots := robots |}.

(** The record behind a reference that the engine holds ([robot] in
    [for robot in robots]), and a write through such a reference. *)
Definition robot_ref (i : nat) : M Robot :=
  g ← get_game;
  match _robots g !! i with
  | Some r => mret r
  | None => raise IndexError
  end.

Definition update_ref (i : nat) (f : Robot -> Robot) : M unit :=
  r ← robot_ref i;
  g ← get_game;
  put_game {| _turn := _turn g; _robots := <[i := f r]> (_robots g) |}.

(** The robot that [self._robots[robot_id]] addresses. *)
Definition index (robot_id : Z) : M nat :=
  g ← get_game;
  match py_index (length (_robots g)) robot_id with
  | Some i => mret i
  | None => raise IndexError
  end.

(** [self._robots[robot_id]] *)
Definition robot_at (robot_id : Z) : M Robot :=
  i ← index robot_id; robot_ref i.

Definition _get_robot_attr {A} (robot_id : Z) (attr : Robot -> A) : M A :=
  r ← robot_at robot_id; mret (attr r).

(** [self._robots[robot_id][attr] = value], the attribute being given by
    its update function. *)
Definition _set_robot_attr (robot_id : Z) (attr : Robot -> Robot)
  : M unit :=
  i ← index robot_id; update_ref i attr.

Definition get_coords (robot_id : Z) : M point :=
  _get_robot_attr robot_id coords.
Definition get_damage (robot_id : Z) : M Z :=
  _get_robot_attr robot_id damage.
Definition get_heading (robot_id : Z) : M float :=
  _get_robot_attr robot_id heading.
Definition get_speed (robot_id : Z) : M float :=
  _get_robot_attr robot_id speed.

(** The argument of the logging call of line 60 is computed whatever the
    log level is, after the heading was stored. *)
Definition set_heading (robot_id : Z) (rads : float) : M unit :=
  _ ← _set_robot_attr robot_id (with_heading rads);
  _ ← lift (py_int (py_degrees rads));
  mret tt.

Definition set_speed (robot_id : Z) (mps : float) : M unit :=
  let mps := py_min mps (Fin (max_speed settings)) in
  _set_robot_attr robot_id (with_speed mps).

Definition active_robots : M (list nat) :=
  g ← get_game; mret (active_from 0 (_robots g)).

(** Lines 86-92: the damage for one target, or the exception of [int];
    [same] tells that the target is the attacker. *)
Definition hit_damage (same : bool) (attacker target : Robot) : exn + Z :=
  if coords_eqb same (coords attacker) (coords target)
  then inr (attack_damage settings)
  else py_int (py_min (Fin (inject_Z (attack_damage settings)))
                      (get_inverse_square (coords attacker) (coords target)
                                          (attack_damage settings))).

(** The damage one target takes, when lines 86-92 yield one. *)
Definition attack_damage_on (same : bool) (attacker target : Robot) : Z :=
  match hit_damage same attacker target with
  | inr damage_ => damage_
  | inl _ => 0
  end.

(** The body of the loop of [attack], for one target. *)
Definition attack_target (attacker_ref target_ref : nat) : M unit :=
  attacker ← robot_ref attacker_ref;
  target ← robot_ref target_ref;
  if is_in_angle (coords attacker) (heading attacker)
                 (attack_angle settings) (coords target)
  then
    damage_ ← lift (hit_damage (attacker_ref =? target_ref)%nat
                               attacker target);
    if damage_ =? 0 then mret tt
    else
      _ ← update_ref target_ref (with_damage (damage target + damage_));
      send target_ref (attacked (class_name (instance attacker)))
  else mret tt.

Definition attack (robot_id : Z) : M unit :=
  attacker_ref ← index robot_id;
  targets ← active_robots;
  for_each targets (attack_target attacker_ref).

Definition _get_line_seg (data : Robot) (now : Q) : M segment :=
  let '(x, y) := coords data in
  match then_ data with
  | None => raise TypeError
  | Some t =>
      let t_d := (now - t)%Q in
      let dist := fmul (speed data) (Fin t_d) in
      c ← math_cos (heading data);
      let x_d := fmul c dist in
      s ← math_sin (heading data);
      let y_d := fmul s dist in
      mret ((x, y), (fadd x x_d, fadd y y_d))
  end.

Definition _update_radar (robots : list nat) : M unit :=
  g ← get_game;
  let radar :=
    map (fun r => (class_name (instance r), coords r)) (_robots g) in
  for_each robots (fun i => send i (radar_updated radar)).

(** The inner loop of [_get_intersections]: what segment [a_id] meets. *)
Definition crossings (line_segs : list (seg_id * segment))
    (a_id : seg_id) (a : segment) : list (seg_id * point) :=
  omap (fun '(b_id, b) =>
          if seg_id_eqb a_id b_id then None
          else match seg_intersect (fst a) (snd a) (fst b) (snd b) with
               | Some p => Some (b_id, p)
               | None => None
               end)
       line_segs.

(** [_get_intersections]: a key appears once it has a first crossing. *)
Definition _get_intersections (line_segs : list (seg_id * segment))
  : list (seg_id * list (seg_id * point)) :=
  omap (fun '(a_id, a) =>
          match crossings line_segs a_id a with
          | [] => None
          | found => Some (a_id, found)
          end)
       line_segs.

Definition border_segs : list (seg_id * segment) :=
  let '(x_max, y_max) := battlefield_size settings in
  let x_max := inject_Z x_max in
  let y_max := inject_Z y_max in
  [ (border "left", (pt 0 0, pt 0 y_max));
    (border "top", (pt 0 y_max, pt x_max y_max));
    (border "right", (pt x_max y_max, pt x_max 0));
    (border "bottom", (pt x_max 0, pt 0 0)) ].

(** Lines 187-188. *)
Fixpoint add_robot_segs (robots : list nat) (now : Q)
    (line_segs : list (seg_id * segment)) : M (list (seg_id * segment)) :=
  match robots with
  | [] => mret line_segs
  | i :: rest =>
      r ← robot_ref i;
      seg ← _get_line_seg r now;
      add_robot_segs rest now (dict_set (robot (id (instance r))) seg line_segs)
  end.

(** [_move_robots].  Both loops over [bumps] unpack a key of [bumps] into
    [(a_id, b_id)].  What survives the unpacking is a pair of characters,
    for which [isinstance(a_id, str)] holds, so the loop body goes on to
    the next key: the statements after the guard are never reached.  Every
    robot of [robots] has its key in [line_segs], so that the lookup of
    line 201 finds it. *)
Definition _move_robots (robots : list nat) : M unit :=
  g ← get_game;
  let now := time (_turn g) in
  line_segs ← add_robot_segs robots now border_segs;
  let bumps := _get_intersections line_segs in
  _ ← for_each bumps (fun '(key, _) =>
         _ ← unpack_pair key; mret tt);
  _ ← for_each robots (fun i =>
         r ← robot_ref i;
         match dict_get (robot (id (instance r))) line_segs with
         | Some seg =>
             update_ref i (fun r => with_then (Some now)
                                      (with_coords (snd seg) r))
         | None => raise KeyError
         end);
  for_each (map fst bumps) (fun key =>
    _ ← unpack_pair key; mret tt).

(** The [while] loop of [run_robots]; [n] bounds the turns still to run. *)
Fixpoint turn_loop (n : nat) (robots : list nat) : M unit :=
  g ← get_game;
  if (1 <? Z.of_nat (length robots)) && (_turn g <? max_turns settings)
  then
    match n with
    | O => cut
    | S n' =>
        _ ← put_game {| _turn := _turn g + 1; _robots := _robots g |};
        _ ← _update_radar robots;
        _ ← _move_robots robots;
        turn_loop n' robots
    end
  else mret tt.

Definition run_robots : M unit :=
  g ← get_game;
  let now := time (_turn g) in
  _ ← for_each (seq 0 (length (_robots g))) (fun i =>
         r ← robot_ref i;
         _ ← send i (started (coords r));
         update_ref i (with_then (Some now)));
  robots ← active_robots;
  turn_loop (Z.to_nat (max_turns settings - _turn g)) robots.

Definition winner_of (r : Robot) : string :=
  class_name (instance r) +:+ " (damage " +:+ str_of_Z (damage r) +:+ ")".

Definition run : M (list string) :=
  _ ← run_robots;
  g ← get_game;
  mret (map winner_of (List.filter (fun r => damage r <? 100) (_robots g))).

(** What [main] prints for the winners returned by [run]. *)
Definition outcome_message (winners : list string) : string :=
  if (1 <? length winners)%nat
  then "Stalemate. The survivors are " +:+ join ", " winners
  else match winners with
       | [w] => "The winner is " +:+ w
       | _ => "All robots were destroyed"
       end.

End Engine.

(** ** Controllers *)

(** What the controllers do: the commands issued by the robot that receives
    an event, given how many notifications were delivered before it.  A
    controller may keep a memory and read the game through the engine's
    accessors; the commands it ends up issuing in a given run are a function
    of the position of the notification in that run. *)
Definition Controllers : Type := nat -> nat -> event -> list command.

Section Dispatch.
Context {maths : Maths} (settings : Settings) (react : Controllers).

(** One call of a controller on the engine's interface. *)
Definition perform (send : nat -> event -> M unit) (c : command) : M unit :=
  match c with
  | SetHeading robot_id rads => set_heading robot_id rads
  | SetSpeed robot_id mps => set_speed settings robot_id mps
  | Attack robot_id => attack settings send robot_id
  | Get Coords robot_id => _ ← get_coords robot_id; mret tt
  | Get Damage robot_id => _ ← get_damage robot_id; mret tt
  | Get Heading robot_id => _ ← get_heading robot_id; mret tt
  | Get Speed robot_id => _ ← get_speed robot_id; mret tt
  end.

(** [robot['instance'].<event>().send(argument)]: the controller handles
    the event and calls back into the engine; an [attack] it issues
    notifies other controllers in turn, to the given depth. *)
Fixpoint deliver (depth : nat) (receiver : nat) (ev : event) : M unit :=
  fun st =>
    let st' := {| game := game st; sent := sent st ++ [(receiver, ev)] |} in
    match depth with
    | O => Cut st'
    | S d =>
        for_each (react (length (sent st)) receiver ev)
                 (perform (deliver d)) st'
    end.

(** [Game.run] with these controllers. *)
Definition play (time : Z -> Q) (depth : nat) : M (list string) :=
  run settings time (deliver depth).

End Dispatch.

(** ** The geometry kernel *)

(** The numbers of a point, when both of its coordinates are numbers. *)
Definition numbers (p : point) : option (Q * Q) :=
  match p with
  | (Fin x, Fin y) => Some (x, y)
  | _ => None
  end.

(** The intersection of two lines in parametric form, kept when both
    parameters pass the test [inside]; none for a zero denominator. *)
Definition crossing (inside : Q -> bool) (a1 a2 b1 b2 : Q * Q)
  : option point :=
  let rx := (fst a2 - fst a1)%Q in
  let ry := (snd a2 - snd a1)%Q in
  let sx := (fst b2 - fst b1)%Q in
  let sy := (snd b2 - snd b1)%Q in
  let denom := (rx * sy - ry * sx)%Q in
  if Qeq_bool denom 0 then None
  else
    let qx := (fst b1 - fst a1)%Q in
    let qy := (snd b1 - snd a1)%Q in
    let t := ((qx * sy - qy * sx) / denom)%Q in
    let u := ((qx * ry - qy * rx) / denom)%Q in
    if inside t && inside u
    then Some (pt (Qred (fst a1 + t * rx)) (Qred (snd a1 + t * ry)))
    else None.

Definition on_numbers (f : Q * Q -> Q * Q -> Q * Q -> Q * Q -> option point)
    (a1 a2 b1 b2 : point) : option point :=
  match numbers a1, numbers a2, numbers b1, numbers b2 with
  | Some a1, Some a2, Some b1, Some b2 => f a1 a2 b1 b2
  | _, _, _, _ => None
  end.

(** Modelled from the spec: [segmentIntersect] of section 4.1, for
    [rrobot.maths.seg_intersect], which is not among the sources.  The
    intersection of the two lines, kept when both parameters lie in
    [0, 1]; none for a zero denominator, and none for a point that is not a
    pair of numbers. *)
Definition spec_seg_intersect : point -> point -> point -> point -> option point :=
  on_numbers (crossing (fun t => Qle_bool 0 t && Qle_bool t 1)).

(** The same test with both parameters strictly inside (0, 1): segments
    that only share an end point do not meet.  It stands for a segment test
    under which a turn can be completed. *)
Definition open_seg_intersect : point -> point -> point -> point -> option point :=
  on_numbers (crossing (fun t => Qltb 0 t && Qltb t 1)).

(** Modelled from the spec: [inverseSquareFalloff] of section 4.1, for
    [rrobot.maths.get_inverse_square], which is not among the sources:
    [peak] at distance 0, else the smaller of [peak] and [peak / distance²];
    0 for a point that is not a pair of numbers. *)
Definition spec_inverse_square (a b : point) (peak : Z) : float :=
  match numbers a, numbers b with
  | Some a, Some b =>
      let dx := (fst b - fst a)%Q in
      let dy := (snd b - snd a)%Q in
      let d2 := (dx * dx + dy * dy)%Q in
      if Qeq_bool d2 0 then Fin (inject_Z peak)
      else py_min (Fin (inject_Z peak)) (Fin (inject_Z peak / d2))
  | _, _ => Fin 0
  end.

(** [math.cos] and [math.sin] are functions of the C library; the first
    terms of their series stand for them, exact at heading 0. *)
Definition series_cos (x : Q) : Q :=
  (1 - x * x / 2 + x * x * x * x / 24)%Q.
Definition series_sin (x : Q) : Q :=
  (x - x * x * x / 6 + x * x * x * x * x / 120)%Q.

(** Modelled from the spec: [isInAngle] of section 4.1, for
    [rrobot.maths.is_in_angle], which is not among the sources.  The point
    lies within half the cone width of the heading when the angle between
    the heading and the direction of the point has a cosine of at least
    [cos (width / 2)]; the comparison is made on the scalar product.  No
    point is in the cone when the heading or a coordinate is not a
    number. *)
Definition spec_is_in_angle (origin : point) (heading_ : float) (width : Q)
    (p : point) : bool :=
  match numbers origin, heading_, numbers p with
  | Some o, Fin h, Some p =>
      let ux := series_cos h in
      let uy := series_sin h in
      let vx := (fst p - fst o)%Q in
      let vy := (snd p - snd o)%Q in
      let dot := (ux * vx + uy * vy)%Q in
      let c := series_cos (width / 2) in
      let rhs := (c * c * (ux * ux + uy * uy) * (vx * vx + vy * vy))%Q in
      if Qle_bool 0 c
      then Qle_bool 0 dot && Qle_bool rhs (dot * dot)
      else Qle_bool 0 dot || Qle_bool (dot * dot) rhs
  | _, _, _ => false
  end.

Definition spec_maths : Maths := {|
  cos := series_cos;
  sin := series_sin;
  seg_intersect := spec_seg_intersect;
  is_in_angle := spec_is_in_angle;
  get_inverse_square := spec_inverse_square
|}.

Definition open_maths : Maths := {|
  cos := series_cos;
  sin := series_sin;
  seg_intersect := open_seg_intersect;
  is_in_angle := spec_is_in_angle;
  get_inverse_square := spec_inverse_square
|}.

(** ** Vocabulary of the statements *)

(** The state with another robot list. *)
Definition set_robots (rs : list Robot) (st : State) : State :=
  {| game := {| _turn := _turn (game st); _robots := rs |};
     sent := sent st |}.

(** A computation relates every state it starts from to the state it
    reaches, however it ends. *)
Definition keeps_rel (R : State -> State -> Prop) {A} (m : M A) : Prop :=
  forall st, R st (state_of (m st)).

(** A property of every robot record of a state. *)
Definition holds (I : Robot -> Prop) (st : State) : Prop :=
  Forall I (_robots (game st)).

Definition keeps (I : Robot -> Prop) {A} (m : M A) : Prop :=
  keeps_rel (fun st st' => holds I st -> holds I st') m.

(** Nothing but headings and speeds differ between two states. *)
Definition same_damage (st st' : State) : Prop :=
  map damage (_robots (game st')) = map damage (_robots (game st)).

(** A command that is not an attack. *)
Definition no_attack (c : command) : Prop :=
  match c with Attack _ => False | _ => True end.

(** Controllers all of whose commands satisfy [okc]. *)
Definition all_commands (okc : command -> Prop) (react : Controllers) : Prop :=
  forall n i ev, Forall okc (react n i ev).

Definition any_command (c : command) : Prop := True.

Lemma all_commands_any react : all_commands any_command react.
Proof. intros n i ev. apply Forall_forall. intros c _. exact I. Qed.

(** ** The monad *)

Ltac unfold_monad :=
  unfold mbind, M_bind, bind, mret, M_ret, ret, raise, cut, get_game, put_game
    in *.

Section Rel.
Variable R : State -> State -> Prop.
Hypothesis R_refl : forall st, R st st.
Hypothesis R_trans : forall a b c, R a b -> R b c -> R a c.

Lemma keeps_rel_ret {A} (a : A) : keeps_rel R (mret a).
Proof. intros st. apply R_refl. Qed.

Lemma keeps_rel_raise {A} (e : exn) : keeps_rel R (@raise A e).
Proof. intros st. apply R_refl. Qed.

Lemma keeps_rel_cut {A} : keeps_rel R (@cut A).
Proof. intros st. apply R_refl. Qed.

Lemma keeps_rel_get_game : keeps_rel R get_game.
Proof. intros st. apply R_refl. Qed.

Lemma keeps_rel_lift {A} (x : exn + A) : keeps_rel R (lift x).
Proof. intros st. destruct x; apply R_refl. Qed.

Lemma keeps_rel_bind {A B} (m : M A) (k : A -> M B) :
  keeps_rel R m -> (forall a, keeps_rel R (k a)) -> keeps_rel R (m ≫= k).
Proof.
  intros Hm Hk st. specialize (Hm st). unfold_monad.
  destruct (m st) as [a st1|e st1|st1]; simpl in *; auto.
  eapply R_trans; [exact Hm | apply Hk].
Qed.

Lemma keeps_rel_for_each {X} (l : list X) (body : X -> M unit) :
  (forall x, x ∈ l -> keeps_rel R (body x)) -> keeps_rel R (for_each l body).
Proof.
  induction l as [|x l IH]; intros Hb; simpl.
  - apply (keeps_rel_ret tt).
  - apply keeps_rel_bind.
    + apply Hb. left.
    + intros _. apply IH. intros y Hy. apply Hb. by right.
Qed.

Lemma keeps_rel_unpack_pair k : keeps_rel R (unpack_pair k).
Proof.
  destruct k as [s|i]; simpl; [|apply keeps_rel_raise].
  destruct s as [|a [|b [|c s]]];
    try apply keeps_rel_raise; apply keeps_rel_ret.
Qed.

Lemma keeps_rel_index i : keeps_rel R (index i).
Proof.
  intros st. unfold index. unfold_monad.
  destruct (py_index _ _); apply R_refl.
Qed.

Lemma keeps_rel_math_cos {maths : Maths} x : keeps_rel R (math_cos x).
Proof. intros st. destruct x; apply R_refl. Qed.

Lemma keeps_rel_math_sin {maths : Maths} x : keeps_rel R (math_sin x).
Proof. intros st. destruct x; apply R_refl. Qed.

Lemma keeps_rel_get_line_seg {maths : Maths} r now :
  keeps_rel R (_get_line_seg r now).
Proof.
  unfold _get_line_seg. destruct (coords r) as [x y].
  destruct (then_ r) as [t|]; [|apply keeps_rel_raise].
  apply keeps_rel_bind; [apply keeps_rel_math_cos|]. intros c.
  apply keeps_rel_bind; [apply keeps_rel_math_sin|]. intros s.
  apply keeps_rel_ret.
Qed.
End Rel.

(** ** What a call of the engine does to the state *)

Lemma py_index_lt n i k : py_index n i = Some k -> (k < n)%nat.
Proof.
  unfold py_index.
  destruct ((0 <=? i) && (i <? Z.of_nat n)) eqn:E.
  - apply andb_true_iff in E as [E1 E2].
    apply Z.leb_le in E1. apply Z.ltb_lt in E2. intros [= <-]. lia.
  - destruct ((- Z.of_nat n <=? i) && (i <? 0)) eqn:E'; [|discriminate].
    apply andb_true_iff in E' as [E1 E2].
    apply Z.leb_le in E1. apply Z.ltb_lt in E2. intros [= <-]. lia.
Qed.

(** An index from 0 to [n - 1] addresses that position, an index from [-n]
    to [-1] the position [n + i], and no other index addresses any. *)
Lemma py_index_spec n i :
  py_index n i =
    if decide (0 <= i < Z.of_nat n) then Some (Z.to_nat i)
    else if decide (- Z.of_nat n <= i < 0) then Some (Z.to_nat (Z.of_nat n + i))
    else None.
Proof.
  unfold py_index.
  destruct (decide (0 <= i < Z.of_nat n)) as [H|H].
  - replace (0 <=? i) with true by (symmetry; apply Z.leb_le; lia).
    replace (i <? Z.of_nat n) with true by (symmetry; apply Z.ltb_lt; lia).
    reflexivity.
  - destruct ((0 <=? i) && (i <? Z.of_nat n)) eqn:E.
    { apply andb_true_iff in E as [E1 E2].
      apply Z.leb_le in E1. apply Z.ltb_lt in E2. lia. }
    destruct (decide (- Z.of_nat n <= i < 0)) as [H'|H'].
    + replace (- Z.of_nat n <=? i) with true by (symmetry; apply Z.leb_le; lia).
      replace (i <? 0) with true by (symmetry; apply Z.ltb_lt; lia).
      reflexivity.
    + destruct ((- Z.of_nat n <=? i) && (i <? 0)) eqn:E'; [|reflexivity].
      apply andb_true_iff in E' as [E1 E2].
      apply Z.leb_le in E1. apply Z.ltb_lt in E2. lia.
Qed.

Lemma py_index_nat n (k : nat) : (k < n)%nat -> py_index n (Z.of_nat k) = Some k.
Proof.
  intros H. rewrite py_index_spec.
  destruct (decide _) as [_|Hn]; [|lia]. by rewrite Nat2Z.id.
Qed.

Section Calls.
Context {maths : Maths} (settings : Settings).

Lemma robot_ref_eq i st :
  robot_ref i st =
    match _robots (game st) !! i with
    | Some r => Ok r st
    | None => Raised IndexError st
    end.
Proof.
  unfold robot_ref. unfold_monad.
  destruct (_robots (game st) !! i); reflexivity.
Qed.

Lemma update_ref_eq i f st :
  update_ref i f st =
    match _robots (game st) !! i with
    | Some r => Ok tt (set_robots (<[i := f r]> (_robots (game st))) st)
    | None => Raised IndexError st
    end.
Proof.
  unfold update_ref. unfold mbind at 1. unfold M_bind, bind.
  rewrite robot_ref_eq. destruct (_robots (game st) !! i); reflexivity.
Qed.

Lemma index_eq robot_id st :
  index robot_id st =
    match py_index (length (_robots (game st))) robot_id with
    | Some i => Ok i st
    | None => Raised IndexError st
    end.
Proof.
  unfold index. unfold_monad. by destruct (py_index _ _).
Qed.

(** An index that addresses a position addresses a robot. *)
Lemma py_index_robot (rs : list Robot) robot_id i :
  py_index (length rs) robot_id = Some i -> is_Some (rs !! i).
Proof. intros H. apply lookup_lt_is_Some. by eapply py_index_lt. Qed.

Lemma robot_at_eq robot_id st :
  robot_at robot_id st =
    match py_index (length (_robots (game st))) robot_id with
    | Some i =>
        match _robots (game st) !! i with
        | Some r => Ok r st
        | None => Raised IndexError st
        end
    | None => Raised IndexError st
    end.
Proof.
  unfold robot_at. unfold mbind, M_bind, bind. rewrite index_eq.
  destruct (py_index _ _); [apply robot_ref_eq | reflexivity].
Qed.

Lemma get_robot_attr_eq {A} (attr : Robot -> A) robot_id st :
  _get_robot_attr robot_id attr st =
    match py_index (length (_robots (game st))) robot_id with
    | Some i =>
        match _robots (game st) !! i with
        | Some r => Ok (attr r) st
        | None => Raised IndexError st
        end
    | None => Raised IndexError st
    end.
Proof.
  unfold _get_robot_attr. unfold mbind, M_bind, bind. rewrite robot_at_eq.
  destruct (py_index _ _) as [i|]; [|reflexivity].
  by destruct (_ !! i).
Qed.

Lemma set_robot_attr_eq robot_id f st :
  _set_robot_attr robot_id f st =
    match py_index (length (_robots (game st))) robot_id with
    | Some i =>
        match _robots (game st) !! i with
        | Some r => Ok tt (set_robots (<[i := f r]> (_robots (game st))) st)
        | None => Raised IndexError st
        end
    | None => Raised IndexError st
    end.
Proof.
  unfold _set_robot_attr. unfold mbind, M_bind, bind. rewrite index_eq.
  destruct (py_index _ _); [apply update_ref_eq | reflexivity].
Qed.

(** One iteration of the loop of [attack], lines 81-98. *)
Lemma attack_target_eq send rid tid st a t :
  _robots (game st) !! rid = Some a ->
  _robots (game st) !! tid = Some t ->
  attack_target settings send rid tid st =
    if is_in_angle (coords a) (heading a) (attack_angle settings) (coords t)
    then
      match hit_damage settings (rid =? tid)%nat a t with
      | inl e => Raised e st
      | inr damage_ =>
          if damage_ =? 0 then Ok tt st
          else send tid (attacked (class_name (instance a)))
                 (set_robots
                    (<[tid := with_damage (damage t + damage_) t]>
                       (_robots (game st))) st)
      end
    else Ok tt st.
Proof.
  intros Ha Ht. unfold attack_target.
  unfold mbind at 1. unfold M_bind, bind. rewrite robot_ref_eq, Ha.
  unfold mbind at 1. unfold M_bind, bind. rewrite robot_ref_eq, Ht.
  destruct (is_in_angle _ _ _ _); [|reflexivity].
  unfold mbind at 1. unfold M_bind, bind.
  destruct (hit_damage settings (rid =? tid)%nat a t) as [e|d]; [reflexivity|].
  simpl. unfold ret. destruct (d =? 0); [reflexivity|].
  unfold mbind at 1. unfold M_bind, bind.
  rewrite update_ref_eq, Ht. reflexivity.
Qed.

Lemma attack_target_out send rid tid st :
  _robots (game st) !! rid = None \/ _robots (game st) !! tid = None ->
  attack_target settings send rid tid st = Raised IndexError st.
Proof.
  intros H. unfold attack_target.
  unfold mbind at 1. unfold M_bind, bind. rewrite robot_ref_eq.
  destruct (_robots (game st) !! rid) as [a|]; [|reflexivity].
  destruct H as [H|H]; [discriminate|].
  unfold mbind at 1. unfold M_bind, bind. rewrite robot_ref_eq, H.
  reflexivity.
Qed.

(** When lines 86-92 yield a damage, it is [attack_damage_on]. *)
Lemma hit_damage_on same a t d :
  hit_damage settings same a t = inr d ->
  attack_damage_on settings same a t = d.
Proof. unfold attack_damage_on. by intros ->. Qed.
End Calls.

(** ** Properties of every robot that the engine keeps *)

Section Invariant.
Context {maths : Maths} (settings : Settings).
Variable I : Robot -> Prop.

(** The commands that the controllers are taken to issue. *)
Variable okc : command -> Prop.

Hypothesis I_heading :
  forall i r h, okc (SetHeading i h) -> I r -> I (with_heading h r).
Hypothesis I_speed :
  forall i r v, okc (SetSpeed i v) -> I r ->
    I (with_speed (py_min v (Fin (max_speed settings))) r).
Hypothesis I_move :
  forall r c t, I r -> I (with_then (Some t) (with_coords c r)).
Hypothesis I_then : forall r t, I r -> I (with_then (Some t) r).
Hypothesis I_damage :
  forall same a r, I r -> attack_damage_on settings same a r <> 0 ->
    I (with_damage (damage r + attack_damage_on settings same a r) r).

Lemma keeps_refl st : holds I st -> holds I st.
Proof. auto. Qed.

Lemma keeps_trans (a b c : State) :
  (holds I a -> holds I b) -> (holds I b -> holds I c) ->
  holds I a -> holds I c.
Proof. auto. Qed.

Lemma keeps_bind {A B} (m : M A) (k : A -> M B) :
  keeps I m -> (forall a, keeps I (k a)) -> keeps I (m ≫= k).
Proof. apply keeps_rel_bind. exact keeps_trans. Qed.

Lemma keeps_ret {A} (a : A) : keeps I (mret a).
Proof. intros st. auto. Qed.

Lemma keeps_raise {A} e : keeps I (@raise A e).
Proof. intros st. auto. Qed.

Lemma keeps_lift {A} (x : exn + A) : keeps I (lift x).
Proof. apply keeps_rel_lift. exact keeps_refl. Qed.

Lemma keeps_for_each {X} (l : list X) (body : X -> M unit) :
  (forall x, x ∈ l -> keeps I (body x)) -> keeps I (for_each l body).
Proof. apply keeps_rel_for_each; [exact keeps_refl | exact keeps_trans]. Qed.

Lemma keeps_robot_ref i : keeps I (robot_ref i).
Proof. intros st. rewrite robot_ref_eq. by destruct (_ !! i). Qed.

Lemma keeps_index i : keeps I (index i).
Proof. apply keeps_rel_index. exact keeps_refl. Qed.

Lemma keeps_get_robot_attr {A} i (attr : Robot -> A) :
  keeps I (_get_robot_attr i attr).
Proof.
  unfold _get_robot_attr, robot_at.
  apply keeps_bind; [|intros r; apply keeps_ret].
  apply keeps_bind; [apply keeps_index|]. intros k. apply keeps_robot_ref.
Qed.

Lemma holds_insert st i r r' :
  _robots (game st) !! i = Some r -> (I r -> I r') ->
  holds I st -> holds I (set_robots (<[i := r']> (_robots (game st))) st).
Proof.
  unfold holds. simpl. intros Hi Hr H.
  apply Forall_insert; [exact H|].
  apply Hr. eapply Forall_lookup_1; eauto.
Qed.

Lemma keeps_update_ref i f :
  (forall r, I r -> I (f r)) -> keeps I (update_ref i f).
Proof.
  intros Hf st. rewrite update_ref_eq.
  destruct (_robots (game st) !! i) as [r|] eqn:Hi; simpl; [|auto].
  eapply holds_insert; eauto.
Qed.

Lemma keeps_set_robot_attr i f :
  (forall r, I r -> I (f r)) -> keeps I (_set_robot_attr i f).
Proof.
  intros Hf. unfold _set_robot_attr.
  apply keeps_bind; [apply keeps_index|]. intros k.
  by apply keeps_update_ref.
Qed.

Lemma keeps_set_heading i h :
  okc (SetHeading i h) -> keeps I (set_heading i h).
Proof.
  intros Hc. unfold set_heading. apply keeps_bind.
  - apply keeps_set_robot_attr. intros r. by apply (I_heading i).
  - intros _. apply keeps_bind; [apply keeps_lift|]. intros _.
    apply keeps_ret.
Qed.

Lemma keeps_set_speed i v :
  okc (SetSpeed i v) -> keeps I (set_speed settings i v).
Proof.
  intros Hc. apply keeps_set_robot_attr. intros r. by apply (I_speed i).
Qed.

Section Send.
Variable time : Z -> Q.
Variable send : nat -> event -> M unit.
Hypothesis keeps_send : forall i ev, keeps I (send i ev).

Lemma keeps_attack_target rid tid :
  keeps I (attack_target settings send rid tid).
Proof.
  intros st.
  destruct (_robots (game st) !! rid) as [a|] eqn:Ha;
    [|rewrite attack_target_out; auto].
  destruct (_robots (game st) !! tid) as [t|] eqn:Ht;
    [|rewrite attack_target_out; auto].
  rewrite (attack_target_eq settings send rid tid st a t Ha Ht).
  destruct (is_in_angle _ _ _ _); [|auto].
  destruct (hit_damage settings _ a t) as [e|d] eqn:Hhit; [auto|].
  destruct (d =? 0) eqn:Hd; [auto|].
  intros H. apply keeps_send.
  eapply holds_insert; eauto.
  intros Hr. rewrite <- (hit_damage_on settings _ a t d Hhit).
  apply I_damage; [exact Hr|].
  rewrite (hit_damage_on settings _ a t d Hhit). by apply Z.eqb_neq.
Qed.

Lemma keeps_attack rid : keeps I (attack settings send rid).
Proof.
  unfold attack. apply keeps_bind; [apply keeps_index|]. intros k.
  apply keeps_bind; [intros st; auto|]. intros targets.
  apply keeps_for_each. intros t _. apply keeps_attack_target.
Qed.

Lemma keeps_perform c : okc c -> keeps I (perform settings send c).
Proof.
  destruct c as [i h|i v|i|a i]; simpl; intros Hc.
  - by apply keeps_set_heading.
  - by apply keeps_set_speed.
  - apply keeps_attack.
  - destruct a; (apply keeps_bind; [apply keeps_get_robot_attr|]);
      intros _; apply keeps_ret.
Qed.

Lemma keeps_update_radar robots : keeps I (_update_radar send robots).
Proof.
  unfold _update_radar. apply keeps_bind; [intros st; auto|]. intros g.
  apply keeps_for_each. intros i _. apply keeps_send.
Qed.

Lemma keeps_add_robot_segs robots now segs :
  keeps I (add_robot_segs robots now segs).
Proof.
  revert segs. induction robots as [|i robots IH]; intros segs; simpl.
  - apply keeps_ret.
  - apply keeps_bind; [apply keeps_robot_ref|]. intros r.
    apply keeps_bind; [|intros seg; apply IH].
    apply keeps_rel_get_line_seg; [exact keeps_refl | exact keeps_trans].
Qed.

Lemma keeps_unpack_pair k : keeps I (unpack_pair k).
Proof. apply keeps_rel_unpack_pair. exact keeps_refl. Qed.

Lemma keeps_move_robots robots :
  keeps I (_move_robots settings time robots).
Proof.
  unfold _move_robots. apply keeps_bind; [intros st; auto|]. intros g.
  apply keeps_bind; [apply keeps_add_robot_segs|]. intros segs.
  apply keeps_bind.
  { apply keeps_for_each. intros [k c] _.
    apply keeps_bind; [apply keeps_unpack_pair|].
    intros _. apply keeps_ret. }
  intros _. apply keeps_bind.
  { apply keeps_for_each. intros i _.
    apply keeps_bind; [apply keeps_robot_ref|]. intros r.
    destruct (dict_get _ _) as [seg|]; [|apply keeps_raise].
    apply keeps_update_ref. intros r'. apply I_move. }
  intros _. apply keeps_for_each. intros k _.
  apply keeps_bind; [apply keeps_unpack_pair|].
  intros _. apply keeps_ret.
Qed.

Lemma keeps_turn_loop n robots :
  keeps I (turn_loop settings time send n robots).
Proof.
  induction n as [|n IH]; simpl.
  - apply keeps_bind; [intros st; auto|]. intros g.
    destruct (_ && _); [intros st; auto | apply keeps_ret].
  - intros st H. unfold mbind at 1. unfold M_bind, bind, get_game.
    destruct (_ && _); [|exact H].
    unfold mbind at 1. unfold M_bind, bind, put_game.
    revert H. generalize (sent st). generalize (_turn (game st) + 1).
    intros turn' log H.
    assert (Hrest : keeps I
              (_update_radar send robots ≫= fun _ =>
               _move_robots settings time robots ≫= fun _ =>
               turn_loop settings time send n robots)).
    { apply keeps_bind; [apply keeps_update_radar|]. intros _.
      apply keeps_bind; [apply keeps_move_robots|]. intros _.
      apply IH. }
    apply Hrest. exact H.
Qed.

Lemma keeps_run_robots : keeps I (run_robots settings time send).
Proof.
  unfold run_robots. apply keeps_bind; [intros st; auto|]. intros g.
  apply keeps_bind.
  { apply keeps_for_each. intros i _.
    apply keeps_bind; [apply keeps_robot_ref|]. intros r.
    apply keeps_bind; [apply keeps_send|]. intros _.
    apply keeps_update_ref. intros r'. apply I_then. }
  intros _. apply keeps_bind; [intros st; auto|]. intros robots.
  apply keeps_turn_loop.
Qed.

Lemma keeps_run : keeps I (run settings time send).
Proof.
  unfold run. apply keeps_bind; [apply keeps_run_robots|]. intros _.
  apply keeps_bind; [intros st; auto|]. intros g. apply keeps_ret.
Qed.
End Send.

Lemma keeps_deliver react depth i ev :
  all_commands okc react ->
  keeps I (deliver settings react depth i ev).
Proof.
  intros Hreact.
  revert i ev. induction depth as [|d IH]; intros i ev st H; simpl.
  - exact H.
  - apply (keeps_for_each _ (perform settings (deliver settings react d))).
    + intros c Hc. apply keeps_perform; [exact IH|].
      specialize (Hreact (length (sent st)) i ev).
      rewrite Forall_forall in Hreact. by apply Hreact.
    + exact H.
Qed.

Lemma keeps_play react time depth :
  all_commands okc react ->
  keeps I (play settings react time depth).
Proof.
  intros Hreact. apply keeps_run. intros i ev. by apply keeps_deliver.
Qed.
End Invariant.

(** ** Construction of the game *)




Lemma init_robots_Forall settings (I : Robot -> Prop) :
  (forall robot_id cls x y,
      I {| instance := {| class_name := cls; id := robot_id |};
           coords := pt (inject_Z x) (inject_Z y);
           speed := Fin 0; damage := 0; heading := Fin 0; then_ := None |}) ->
  forall classes robot_id draws robots,
    init_robots settings robot_id classes draws = Some robots ->
    Forall I robots.
Proof.
  intros HI. induction classes as [|cls classes IH];
    intros robot_id draws robots; simpl.
  - intros [= <-]. constructor.
  - destruct (battlefield_size settings) as [x_max y_max].
    destruct (randrange _ 0 x_max) as [x|]; [|discriminate]. simpl.
    destruct (randrange _ 0 y_max) as [y|]; [|discriminate]. simpl.
    destruct (init_robots settings (S robot_id) classes (drop 2 draws))
      as [rs|] eqn:E; [|discriminate]. simpl.
    intros [= <-]. constructor; [apply HI | eapply IH; eauto].
Qed.

Lemma init_Forall settings (I : Robot -> Prop) :
  (forall robot_id cls x y,
      I {| instance := {| class_name := cls; id := robot_id |};
           coords := pt (inject_Z x) (inject_Z y);
           speed := Fin 0; damage := 0; heading := Fin 0; then_ := None |}) ->
  forall classes draws g,
    init settings classes draws = Some g -> Forall I (_robots g).
Proof.
  intros HI classes draws g. unfold init.
  destruct (init_robots settings 0 classes draws) as [rs|] eqn:E;
    [|discriminate].
  simpl. intros [= <-]. simpl. eapply init_robots_Forall; eauto.
Qed.


Definition arena10 : Settings := {|
  battlefield_size := (10, 10);
  max_speed := 10;
  attack_angle := 1;
  attack_damage := 30;
  max_turns := 3;
  radar_interval := 100
|}.


(** ** Speed *)

Lemma Qltb_false a b : Qltb a b = false <-> (b <= a)%Q.
Proof.
  unfold Qltb. rewrite negb_false_iff. apply Qle_bool_iff.
Qed.

Lemma Qltb_true a b : Qltb a b = true <-> (a < b)%Q.
Proof.
  unfold Qltb. rewrite negb_true_iff. split.
  - intros H. apply Qnot_le_lt. intros Hle.
    apply Qle_bool_iff in Hle. congruence.
  - intros H. destruct (Qle_bool b a) eqn:E; [|reflexivity].
    apply Qle_bool_iff in E. apply Qlt_not_le in H. contradiction.
Qed.

Lemma fle_refl a : a <> NaN -> fle a a = true.
Proof.
  destruct a as [x| | |]; simpl; try congruence.
  intros _. apply Qle_bool_iff, Qle_refl.
Qed.

Lemma flt_fle a b : flt a b = true -> fle a b = true.
Proof.
  destruct a as [x| | |], b as [y| | |]; simpl; try congruence.
  rewrite Qltb_true. intros H. by apply Qle_bool_iff, Qlt_le_weak.
Qed.

Lemma flt_false_fle a b :
  a <> NaN -> b <> NaN -> flt a b = false -> fle b a = true.
Proof.
  destruct a as [x| | |], b as [y| | |]; simpl; try congruence.
  intros _ _. rewrite Qltb_false. apply Qle_bool_iff.
Qed.

Lemma fle_flt_false a b : fle a b = true -> flt b a = false.
Proof.
  destruct a as [x| | |], b as [y| | |]; simpl; try congruence.
  intros H. apply Qltb_false. by apply Qle_bool_iff.
Qed.

Lemma fle_trans a b c : fle a b = true -> fle b c = true -> fle a c = true.
Proof.
  destruct a as [x| | |], b as [y| | |], c as [z| | |]; simpl;
    try congruence.
  rewrite !Qle_bool_iff. apply Qle_trans.
Qed.

(** The smaller of a float that is not [nan] and a number is at most the
    number and at most the float. *)
Lemma py_min_le_r a m : a <> NaN -> fle (py_min a (Fin m)) (Fin m) = true.
Proof.
  intros Ha. unfold py_min. destruct (flt (Fin m) a) eqn:E.
  - by apply fle_refl.
  - by apply flt_false_fle.
Qed.

Lemma py_min_le_l a b : a <> NaN -> fle (py_min a b) a = true.
Proof.
  intros Ha. unfold py_min. destruct (flt b a) eqn:E.
  - by apply flt_fle.
  - by apply fle_refl.
Qed.

Lemma py_min_ge c a b :
  fle c a = true -> fle c b = true -> fle c (py_min a b) = true.
Proof. intros Ha Hb. unfold py_min. by destruct (flt b a). Qed.

Lemma py_min_nan b : py_min NaN b = NaN.
Proof. unfold py_min. by destruct b. Qed.

(** The speed of a robot is at most the configured maximum; it lies
    between 0 and the maximum. *)
Definition speed_bounded (settings : Settings) (r : Robot) : Prop :=
  fle (speed r) (Fin (max_speed settings)) = true.

Definition speed_in_range (settings : Settings) (r : Robot) : Prop :=
  fle (Fin 0) (speed r) = true /\ speed_bounded settings r.

(** The speed that the command asks for, if it asks for one, is not
    [nan]; it is not [nan] and not negative. *)
Definition asks_a_number (c : command) : Prop :=
  match c with SetSpeed _ mps => mps <> NaN | _ => True end.

Definition asks_no_negative (c : command) : Prop :=
  match c with SetSpeed _ mps => fle (Fin 0) mps = true | _ => True end.

(** C6, as the code has it.  [set_speed] on a robot of the game does not
    fail and stores the smaller of the requested speed and [max_speed] as
    Python's [min] gives it: the request itself when it is negative (there
    is no lower clamp) or [nan], and otherwise a float that exceeds neither
    the request nor [max_speed].  With a [max_speed] that is not negative,
    every robot is built with speed 0; a run, whatever the controllers do
    and however it ends, keeps every speed at most [max_speed] as long as no
    controller asks for the speed [nan], and keeps every speed between 0
    and [max_speed] as long as no controller asks for a speed that is
    negative or [nan]. *)
Theorem speed_clamped_above_only :
  forall (maths : Maths) (settings : Settings),
    (0 <= max_speed settings)%Q ->
    let top := Fin (max_speed settings) in
    (forall st robot_id i r mps,
        py_index (length (_robots (game st))) robot_id = Some i ->
        _robots (game st) !! i = Some r ->
        set_speed settings robot_id mps st =
          Ok tt (set_robots
                   (<[i := with_speed (py_min mps top) r]>
                      (_robots (game st))) st)) /\
    (forall mps,
        (mps <> NaN ->
         fle (py_min mps top) top = true /\
         fle (py_min mps top) mps = true) /\
        (fle (Fin 0) mps = true -> fle (Fin 0) (py_min mps top) = true) /\
        (flt mps (Fin 0) = true -> py_min mps top = mps)) /\
    py_min NaN top = NaN /\
    (forall robot_classes draws g,
        init settings robot_classes draws = Some g ->
        Forall (speed_in_range settings) (_robots g)) /\
    (forall react time depth st,
        all_commands asks_a_number react ->
        holds (speed_bounded settings) st ->
        holds (speed_bounded settings)
              (state_of (play settings react time depth st))) /\
    (forall react time depth st,
        all_commands asks_no_negative react ->
        holds (speed_in_range settings) st ->
        holds (speed_in_range settings)
              (state_of (play settings react time depth st))).
Proof.
  intros maths settings Hmax top.
  assert (Htop : fle (Fin 0) top = true) by by apply Qle_bool_iff.
  split; [|split; [|split; [|split; [|split]]]].
  - intros st robot_id i r mps Hi Hr.
    unfold set_speed. rewrite set_robot_attr_eq, Hi, Hr. reflexivity.
  - intros mps. split; [|split].
    + intros Hn. split; [by apply py_min_le_r | by apply py_min_le_l].
    + intros Hpos. by apply py_min_ge.
    + intros Hneg. unfold py_min.
      destruct (flt top mps) eqn:E; [|reflexivity].
      destruct mps as [x| | |]; try discriminate.
      simpl in Hneg, E. apply Qltb_true in Hneg, E. lra.
  - apply py_min_nan.
  - intros classes draws g. apply init_Forall. intros.
    split; [reflexivity | exact Htop].
  - intros react time depth st Hreact.
    apply (keeps_play settings (speed_bounded settings) asks_a_number);
      unfold speed_bounded; auto.
    intros i r v Hv _. cbn [speed with_speed]. by apply py_min_le_r.
  - intros react time depth st Hreact.
    apply (keeps_play settings (speed_in_range settings) asks_no_negative);
      unfold speed_in_range, speed_bounded; auto.
    intros i r v Hv _. cbn [speed with_speed]. split.
    + by apply py_min_ge.
    + apply py_min_le_r. intros ->. discriminate.
Qed.

Definition parrot (x y : Q) (v : Q) (d : Z) : Robot := {|
  instance := {| class_name := "Parrot"; id := 0 |};
  coords := pt x y; speed := Fin v; damage := d; heading := Fin 0;
  then_ := Some 0%Q
|}.

Definition lumberjack (x y : Q) (v : Q) (d : Z) : Robot := {|
  instance := {| class_name := "Lumberjack"; id := 1 |};
  coords := pt x y; speed := Fin v; damage := d; heading := Fin 0;
  then_ := Some 0%Q
|}.

Definition on_field (rs : list Robot) : State :=
  {| game := {| _turn := 0; _robots := rs |}; sent := [] |}.

(** Controllers that ask for speed 25 when they are told that the game
    started. *)
Definition racer : Controllers :=
  fun _ receiver ev =>
    match ev with
    | started _ => [SetSpeed (Z.of_nat receiver) (Fin 25)]
    | _ => []
    end.

Lemma speed_clamped_above_only_witness :
  (0 <= max_speed arena10)%Q /\
  set_speed arena10 (-1) (Fin 25) (on_field [parrot 5 5 0 0]) =
    Ok tt (on_field [parrot 5 5 10 0]) /\
  holds (speed_in_range arena10)
        (state_of (play (maths := spec_maths) arena10 racer inject_Z 1
                        (on_field [parrot 2 5 0 0; lumberjack 4 5 0 0]))) /\
  map speed
      (_robots (game (state_of
         (play (maths := spec_maths) arena10 racer inject_Z 1
               (on_field [parrot 2 5 0 0; lumberjack 4 5 0 0]))))) =
    [Fin 10; Fin 10].
Proof.
  assert (H : (0 <= max_speed arena10)%Q) by (vm_compute; discriminate).
  split; [exact H|].
  destruct (speed_clamped_above_only spec_maths arena10 H)
    as (Hset & _ & _ & _ & _ & Hrun).
  split; [|split].
  - rewrite (Hset (on_field [parrot 5 5 0 0]) (-1) 0%nat (parrot 5 5 0 0)
               (Fin 25) eq_refl eq_refl).
    reflexivity.
  - apply Hrun.
    + intros n i ev. destruct ev; repeat constructor.
    + repeat constructor.
  - reflexivity.
Defined.

(** C6 fails as stated: a negative speed is stored as it is, and so is
    [nan], which is not at most [max_speed]. *)
Lemma set_speed_stores_negative_speed :
  set_speed arena10 0 (Fin (-3)) (on_field [parrot 5 5 0 0]) =
    Ok tt (on_field [parrot 5 5 (-3) 0]) /\
  flt (speed (parrot 5 5 (-3) 0)) (Fin 0) = true /\
  set_speed arena10 0 NaN (on_field [parrot 5 5 0 0]) =
    Ok tt (on_field [with_speed NaN (parrot 5 5 0 0)]) /\
  fle (speed (with_speed NaN (parrot 5 5 0 0))) (Fin (max_speed arena10))
    = false.
Proof. repeat split; reflexivity. Qed.

(** ** The damage of one hit *)

Lemma trunc_nonneg x : (0 <= x)%Q -> 0 <= trunc x.
Proof.
  destruct x as [n d]. unfold Qle, trunc. simpl. intros H.
  apply Z.quot_pos; lia.
Qed.

Lemma trunc_le x z : (x <= inject_Z z)%Q -> trunc x <= z.
Proof.
  destruct x as [n d]. unfold Qle, trunc, inject_Z. simpl. intros H.
  destruct (Z.le_gt_cases 0 n) as [Hn|Hn].
  - rewrite Z.quot_div_nonneg by lia.
    apply Z.div_le_upper_bound; lia.
  - destruct (Z.le_gt_cases 0 z) as [Hz|Hz].
    + pose proof (Z.quot_opp_l n (Z.pos d) ltac:(lia)) as Ho.
      assert (0 <= Z.quot (- n) (Z.pos d)) by (apply Z.quot_pos; lia).
      lia.
    + pose proof (Z.quot_opp_l n (Z.pos d) ltac:(lia)) as Ho.
      assert (- z <= Z.quot (- n) (Z.pos d)).
      { rewrite Z.quot_div_nonneg by lia.
        apply Z.div_le_lower_bound; lia. }
      lia.
Qed.

Lemma trunc_inject_Z z : trunc (inject_Z z) = z.
Proof. unfold trunc. simpl. apply Z.quot_1_r. Qed.

Section Hit.
Context {maths : Maths} (settings : Settings).

Lemma hit_damage_point_blank same a t :
  coords_eqb same (coords a) (coords t) = true ->
  hit_damage settings same a t = inr (attack_damage settings).
Proof. intros H. unfold hit_damage. by rewrite H. Qed.

Lemma attack_damage_on_point_blank same a t :
  coords_eqb same (coords a) (coords t) = true ->
  attack_damage_on settings same a t = attack_damage settings.
Proof.
  intros H. unfold attack_damage_on.
  by rewrite hit_damage_point_blank.
Qed.

(** The damage that lines 86-92 yield is at most the peak. *)
Lemma hit_damage_le_peak same a t d :
  hit_damage settings same a t = inr d -> d <= attack_damage settings.
Proof.
  unfold hit_damage. destruct (coords_eqb _ _ _); [intros [= <-]; lia|].
  unfold py_min.
  destruct (get_inverse_square _ _ _) as [q| | |] eqn:Hq; simpl;
    try (intros [= <-]; rewrite trunc_inject_Z; lia); try discriminate.
  destruct (Qltb q (inject_Z (attack_damage settings))) eqn:E; simpl;
    intros [= <-].
  - apply trunc_le. apply Qltb_true in E. by apply Qlt_le_weak.
  - rewrite trunc_inject_Z. lia.
Qed.

Section NonNegative.
Hypothesis peak_nonneg : 0 <= attack_damage settings.
Hypothesis falloff_nonneg :
  forall p q,
    fle (Fin 0) (get_inverse_square p q (attack_damage settings)) = true.

(** With a peak and a falloff that are not negative, lines 86-92 yield a
    damage, which is not negative. *)
Lemma hit_damage_nonneg same a t :
  exists d, hit_damage settings same a t = inr d /\ 0 <= d.
Proof.
  unfold hit_damage. destruct (coords_eqb _ _ _); [eauto|].
  pose proof (falloff_nonneg (coords a) (coords t)) as Hf.
  unfold py_min.
  destruct (get_inverse_square _ _ _) as [q| | |] eqn:Hq; simpl in *;
    try discriminate.
  - apply Qle_bool_iff in Hf.
    destruct (Qltb q (inject_Z (attack_damage settings))); simpl.
    + eexists. split; [reflexivity|]. by apply trunc_nonneg.
    + eexists. split; [reflexivity|]. by rewrite trunc_inject_Z.
  - eexists. split; [reflexivity|]. by rewrite trunc_inject_Z.
Qed.

Lemma hit_damage_eq same a t :
  hit_damage settings same a t = inr (attack_damage_on settings same a t).
Proof.
  destruct (hit_damage_nonneg same a t) as (d & Hd & _).
  by rewrite (hit_damage_on settings same a t d Hd).
Qed.

Lemma attack_damage_on_nonneg same a t :
  0 <= attack_damage_on settings same a t.
Proof.
  destruct (hit_damage_nonneg same a t) as (d & Hd & Hnn).
  by rewrite (hit_damage_on settings same a t d Hd).
Qed.

Lemma attack_damage_on_le_peak same a t :
  attack_damage_on settings same a t <= attack_damage settings.
Proof. apply (hit_damage_le_peak same a t), hit_damage_eq. Qed.
End NonNegative.
End Hit.

(** ** An attack call *)

(** The target lies in the attack cone of the attacker. *)
Definition in_cone {maths : Maths} (settings : Settings) (a t : Robot) : bool :=
  is_in_angle (coords a) (heading a) (attack_angle settings) (coords t).

(** The record of a target once the loop of [attack] has visited it;
    [same] tells that the target is the attacker. *)
Definition hit_by {maths : Maths} (settings : Settings) (same : bool)
    (a t : Robot) : Robot :=
  if in_cone settings a t && (0 <? attack_damage_on settings same a t)
  then with_damage (damage t + attack_damage_on settings same a t) t
  else t.

(** The record of any robot after an attack call of [a]. *)
Definition struck {maths : Maths} (settings : Settings) (same : bool)
    (a t : Robot) : Robot :=
  if damage t <? 100 then hit_by settings same a t else t.

(** The notification that robot [i] receives from the attack call of the
    robot at position [rid], if any. *)
Definition notice {maths : Maths} (settings : Settings) (rid : nat)
    (a : Robot) (rs : list Robot) (i : nat) : option (nat * event) :=
  t ← rs !! i;
  if in_cone settings a t
     && (0 <? attack_damage_on settings (rid =? i)%nat a t)
  then Some (i, attacked (class_name (instance a)))
  else None.

(** Two records of a robot that differ at most in the damage. *)
Definition same_pose (a a1 : Robot) : Prop :=
  coords a1 = coords a /\ heading a1 = heading a /\ instance a1 = instance a.

Lemma active_from_elem rs : forall k i,
  i ∈ active_from k rs <->
  exists t, (k <= i)%nat /\ rs !! (i - k)%nat = Some t /\ damage t < 100.
Proof.
  induction rs as [|r rs IH]; intros k i; simpl.
  - split; [intros H; inversion H | intros (t & _ & H & _); discriminate].
  - destruct (damage r <? 100) eqn:E.
    + rewrite elem_of_cons, IH. apply Z.ltb_lt in E. split.
      * intros [->|(t & Hk & Ht & Hd)].
        -- exists r. rewrite Nat.sub_diag. auto.
        -- exists t. split; [lia|]. split; [|exact Hd].
           replace (i - k)%nat with (S (i - S k)) by lia. exact Ht.
      * intros (t & Hk & Ht & Hd).
        destruct (decide (i = k)) as [->|Hne]; [by left|right].
        exists t. split; [lia|]. split; [|exact Hd].
        replace (i - k)%nat with (S (i - S k)) in Ht by lia. exact Ht.
    + rewrite IH. apply Z.ltb_ge in E. split.
      * intros (t & Hk & Ht & Hd). exists t. split; [lia|].
        split; [|exact Hd].
        replace (i - k)%nat with (S (i - S k)) by lia. exact Ht.
      * intros (t & Hk & Ht & Hd).
        destruct (decide (i = k)) as [->|Hne].
        { rewrite Nat.sub_diag in Ht. simpl in Ht. injection Ht as <-. lia. }
        exists t. split; [lia|]. split; [|exact Hd].
        replace (i - k)%nat with (S (i - S k)) in Ht by lia. exact Ht.
Qed.

Lemma active_from_NoDup rs : forall k, NoDup (active_from k rs).
Proof.
  induction rs as [|r rs IH]; intros k; simpl; [constructor|].
  destruct (damage r <? 100); [|apply IH].
  constructor; [|apply IH].
  rewrite active_from_elem. intros (t & Hk & _). lia.
Qed.

Lemma omap_agree {X Y} (f g : X -> option Y) (l : list X) :
  (forall x, x ∈ l -> f x = g x) -> omap f l = omap g l.
Proof.
  induction l as [|x l IH]; intros H; csimpl; [reflexivity|].
  rewrite (H x) by left. rewrite IH; [reflexivity|].
  intros y Hy. apply H. by right.
Qed.

Lemma with_damage_pose d t : same_pose t (with_damage d t).
Proof. by repeat split. Qed.

(** [attack] resolves the id of the attacker, takes the robots that are
    active at that moment and visits each of them. *)
Lemma attack_eq {maths : Maths} settings send robot_id st :
  attack settings send robot_id st =
    match py_index (length (_robots (game st))) robot_id with
    | Some i =>
        for_each (active_from 0 (_robots (game st)))
                 (attack_target settings send i) st
    | None => Raised IndexError st
    end.
Proof.
  unfold attack. unfold mbind at 1. unfold M_bind, bind.
  rewrite index_eq. by destruct (py_index _ _).
Qed.

Section AttackCall.
Context {maths : Maths} (settings : Settings).
Variable send : nat -> event -> M unit.

Hypothesis peak_nonneg : 0 <= attack_damage settings.
Hypothesis falloff_nonneg :
  forall p q,
    fle (Fin 0) (get_inverse_square p q (attack_damage settings)) = true.
Hypothesis send_passive : forall i by_ st,
  send i (attacked by_) st =
    Ok tt {| game := game st; sent := sent st ++ [(i, attacked by_)] |}.

Lemma same_pose_hit same a a1 t :
  same_pose a a1 ->
  in_cone settings a1 t = in_cone settings a t /\
  hit_damage settings same a1 t = hit_damage settings same a t /\
  attack_damage_on settings same a1 t = attack_damage_on settings same a t /\
  class_name (instance a1) = class_name (instance a).
Proof.
  intros (Hc & Hh & Hi). unfold in_cone, attack_damage_on, hit_damage.
  by rewrite Hc, Hh, Hi.
Qed.

(** One iteration of the loop, with controllers that do not react to the
    notification. *)
Lemma attack_target_passive rid i turn rs log a a1 t :
  rs !! rid = Some a1 -> same_pose a a1 -> rs !! i = Some t ->
  attack_target settings send rid i
      {| game := {| _turn := turn; _robots := rs |}; sent := log |} =
    Ok tt {| game := {| _turn := turn;
                        _robots :=
                          <[i := hit_by settings (rid =? i)%nat a t]> rs |};
             sent := log ++ match notice settings rid a rs i with
                            | Some n => [n]
                            | None => []
                            end |}.
Proof.
  intros Ha Hpose Ht.
  rewrite (attack_target_eq settings _ rid i
             {| game := {| _turn := turn; _robots := rs |}; sent := log |}
             a1 t Ha Ht).
  destruct (same_pose_hit (rid =? i)%nat a a1 t Hpose)
    as (Hcone & Hhit & Hd & Hname).
  fold (in_cone settings a1 t). rewrite Hcone, Hhit, Hname.
  rewrite (hit_damage_eq settings peak_nonneg falloff_nonneg).
  unfold notice, hit_by. rewrite Ht. cbn [mbind option_bind].
  pose proof (attack_damage_on_nonneg settings peak_nonneg falloff_nonneg
                (rid =? i)%nat a t) as Hnn.
  destruct (in_cone settings a t).
  - destruct (attack_damage_on settings (rid =? i)%nat a t =? 0) eqn:E.
    + apply Z.eqb_eq in E. rewrite E. cbn.
      rewrite list_insert_id by exact Ht. by rewrite app_nil_r.
    + apply Z.eqb_neq in E.
      destruct (0 <? attack_damage_on settings (rid =? i)%nat a t) eqn:E'.
      * rewrite send_passive. reflexivity.
      * apply Z.ltb_ge in E'. lia.
  - cbn. rewrite list_insert_id by exact Ht. by rewrite app_nil_r.
Qed.

Lemma attack_loop_passive rid a turn : forall l rs log a1,
  NoDup l -> (forall i, i ∈ l -> is_Some (rs !! i)) ->
  rs !! rid = Some a1 -> same_pose a a1 ->
  for_each l (attack_target settings send rid)
      {| game := {| _turn := turn; _robots := rs |}; sent := log |} =
    Ok tt {| game :=
               {| _turn := turn;
                  _robots :=
                    imap (fun i t => if bool_decide (i ∈ l)
                                     then hit_by settings (rid =? i)%nat a t
                                     else t) rs |};
             sent := log ++ omap (notice settings rid a rs) l |}.
Proof.
  induction l as [|i l IH]; intros rs log a1 Hnd Hin Ha Hpose.
  - simpl. unfold ret. rewrite app_nil_r. do 3 f_equal.
    apply list_eq. intros j. rewrite list_lookup_imap.
    by destruct (rs !! j).
  - apply NoDup_cons in Hnd as [Hi Hnd].
    destruct (Hin i ltac:(left)) as [t Ht].
    simpl. unfold mbind at 1. unfold M_bind, bind.
    rewrite (attack_target_passive rid i turn rs log a a1 t Ha Hpose Ht).
    assert (Ha' : exists a2,
               <[i := hit_by settings (rid =? i)%nat a t]> rs !! rid = Some a2
               /\ same_pose a a2).
    { destruct (decide (rid = i)) as [->|Hne].
      - exists (hit_by settings (i =? i)%nat a t). split.
        + apply list_lookup_insert_eq. by eapply lookup_lt_Some.
        + assert (t = a1) as -> by congruence.
          destruct Hpose as (Hc & Hh & Hinst). unfold hit_by.
          destruct (_ && _); [|by repeat split].
          repeat split; simpl; auto.
      - exists a1. split; [|exact Hpose].
        by rewrite list_lookup_insert_ne. }
    destruct Ha' as (a2 & Ha2 & Hpose2).
    rewrite (IH _ _ a2 Hnd); [|..|exact Ha2|exact Hpose2].
    + f_equal. f_equal.
      * f_equal. apply list_eq. intros j. rewrite !list_lookup_imap.
        destruct (decide (j = i)) as [->|Hne].
        -- rewrite list_lookup_insert_eq by (by eapply lookup_lt_Some).
           rewrite Ht. simpl.
           rewrite bool_decide_eq_false_2 by exact Hi.
           rewrite bool_decide_eq_true_2 by left. reflexivity.
        -- rewrite list_lookup_insert_ne by auto.
           destruct (rs !! j) as [tj|]; simpl; [|reflexivity].
           f_equal. destruct (decide (j ∈ l)) as [Hj|Hj].
           ++ rewrite !bool_decide_eq_true_2; auto. by right.
           ++ rewrite !bool_decide_eq_false_2; auto.
              rewrite elem_of_cons. intros [?|?]; auto.
      * rewrite <- app_assoc. f_equal.
        rewrite (omap_agree
                   (notice settings rid a
                      (<[i := hit_by settings (rid =? i)%nat a t]> rs))
                   (notice settings rid a rs)).
        -- destruct (notice settings rid a rs i); reflexivity.
        -- intros j Hj. unfold notice.
           rewrite list_lookup_insert_ne; [reflexivity|].
           intros ->. auto.
    + intros j Hj. apply lookup_lt_is_Some. rewrite length_insert.
      apply lookup_lt_is_Some. apply Hin. by right.
Qed.
End AttackCall.

Lemma deliver_passive {maths : Maths} settings react depth i by_ st :
  (forall n j name, react n j (attacked name) = []) ->
  deliver settings react (S depth) i (attacked by_) st =
    Ok tt {| game := game st; sent := sent st ++ [(i, attacked by_)] |}.
Proof. intros H. simpl. rewrite H. reflexivity. Qed.

(** An attack call, the controllers not reacting to the notification of a
    hit: every robot ends with the record [struck] gives it, and the active
    robots that took a positive damage were notified, in the order of their
    ids. *)
Lemma attack_call_passive :
  forall (maths : Maths) (settings : Settings) (react : Controllers)
         (depth : nat) (st : State) (robot_id : Z) (i : nat)
         (attacker : Robot),
    0 <= attack_damage settings ->
    (forall p q,
        fle (Fin 0) (get_inverse_square p q (attack_damage settings)) = true) ->
    (forall n i by_, react n i (attacked by_) = []) ->
    py_index (length (_robots (game st))) robot_id = Some i ->
    _robots (game st) !! i = Some attacker ->
    attack settings (deliver settings react (S depth)) robot_id st =
      Ok tt
         {| game :=
              {| _turn := _turn (game st);
                 _robots :=
                   imap (fun j => struck settings (i =? j)%nat attacker)
                        (_robots (game st)) |};
            sent :=
              sent st ++ omap (notice settings i attacker (_robots (game st)))
                              (active_from 0 (_robots (game st))) |}.
Proof.
  intros maths settings react depth [[turn rs] log] robot_id rid a
         Hp Hf Hpassive Hi Ha.
  assert (Hsend : forall i by_ st,
             deliver settings react (S depth) i (attacked by_) st =
               Ok tt {| game := game st;
                        sent := sent st ++ [(i, attacked by_)] |}).
  { intros. by apply deliver_passive. }
  revert Hsend. generalize (deliver settings react (S depth)).
  intros send Hsend.
  rewrite attack_eq, Hi. cbn [game _robots _turn sent] in *.
  rewrite (attack_loop_passive settings send Hp Hf Hsend
             rid a turn (active_from 0 rs) rs log a).
  - do 3 f_equal. apply list_eq. intros j.
    rewrite !list_lookup_imap.
    destruct (rs !! j) as [t|] eqn:Ht; simpl; [|reflexivity].
    f_equal. unfold struck.
    destruct (damage t <? 100) eqn:E.
    + rewrite bool_decide_eq_true_2; [reflexivity|].
      apply active_from_elem. exists t. rewrite Nat.sub_0_r.
      apply Z.ltb_lt in E. split; [lia|]. auto.
    + rewrite bool_decide_eq_false_2; [reflexivity|].
      rewrite active_from_elem. rewrite Nat.sub_0_r.
      intros (t' & _ & Ht' & Hd). apply Z.ltb_ge in E.
      assert (t' = t) as -> by congruence. lia.
  - apply active_from_NoDup.
  - intros k Hk. apply active_from_elem in Hk as (t & _ & Ht & _).
    rewrite Nat.sub_0_r in Ht. eauto.
  - exact Ha.
  - by repeat split.
Qed.

(** C7: the peak damage and the falloff not being negative, [attack] visits
    the robots that were active when the call began, and every visit of a
    target in the attacker's cone computes the damage of lines 86-92, an
    integer obtained by truncation; when it is positive, it is added to the
    target's damage and the target is sent one "attacked" notification
    naming the attacker's class, and when it is zero the game is left as it
    is and nothing is sent.  When the controllers do not react to that
    notification, the whole call leaves every robot with the record
    [struck] gives it and has notified the robots that were hit, once
    each. *)
Theorem attack_adds_truncated_damage_and_notifies :
  forall (maths : Maths) (settings : Settings),
    0 <= attack_damage settings ->
    (forall p q,
        fle (Fin 0) (get_inverse_square p q (attack_damage settings)) = true) ->
    (forall send st robot_id i,
        py_index (length (_robots (game st))) robot_id = Some i ->
        attack settings send robot_id st =
          for_each (active_from 0 (_robots (game st)))
                   (attack_target settings send i) st) /\
    (forall send st rid tid attacker target,
        _robots (game st) !! rid = Some attacker ->
        _robots (game st) !! tid = Some target ->
        in_cone settings attacker target = true ->
        0 <= attack_damage_on settings (rid =? tid)%nat attacker target /\
        attack_target settings send rid tid st =
          if 0 <? attack_damage_on settings (rid =? tid)%nat attacker target
          then send tid (attacked (class_name (instance attacker)))
                 (set_robots
                    (<[tid :=
                         with_damage
                           (damage target
                            + attack_damage_on settings (rid =? tid)%nat
                                               attacker target)
                           target]> (_robots (game st))) st)
          else Ok tt st) /\
    (forall react depth st robot_id i attacker,
        (forall n i by_, react n i (attacked by_) = []) ->
        py_index (length (_robots (game st))) robot_id = Some i ->
        _robots (game st) !! i = Some attacker ->
        attack settings (deliver settings react (S depth)) robot_id st =
          Ok tt
             {| game :=
                  {| _turn := _turn (game st);
                     _robots :=
                       imap (fun j => struck settings (i =? j)%nat attacker)
                            (_robots (game st)) |};
                sent :=
                  sent st ++
                  omap (notice settings i attacker (_robots (game st)))
                       (active_from 0 (_robots (game st))) |}).
Proof.
  intros maths settings Hp Hf. split; [|split].
  - intros send st robot_id i Hi. by rewrite attack_eq, Hi.
  - intros send st rid tid a t Ha Ht Hcone.
    pose proof (attack_damage_on_nonneg settings Hp Hf (rid =? tid)%nat a t)
      as Hnn.
    split; [exact Hnn|].
    rewrite (attack_target_eq settings send rid tid st a t Ha Ht).
    unfold in_cone in Hcone. rewrite Hcone.
    rewrite (hit_damage_eq settings Hp Hf).
    destruct (attack_damage_on settings (rid =? tid)%nat a t =? 0) eqn:E.
    + apply Z.eqb_eq in E. by rewrite E.
    + apply Z.eqb_neq in E.
      destruct (0 <? attack_damage_on settings (rid =? tid)%nat a t) eqn:E';
        [reflexivity|].
      apply Z.ltb_ge in E'. lia.
  - intros react depth st robot_id i a Hpassive Hi Ha.
    by apply attack_call_passive.
Qed.

Lemma spec_inverse_square_nonneg p q peak :
  0 <= peak -> fle (Fin 0) (spec_inverse_square p q peak) = true.
Proof.
  intros Hp. unfold spec_inverse_square.
  assert (Hq : (0 <= inject_Z peak)%Q).
  { change 0%Q with (inject_Z 0). by rewrite <- Zle_Qle. }
  destruct (numbers p) as [[px py]|]; [|reflexivity].
  destruct (numbers q) as [[qx qy]|]; [|reflexivity].
  cbn [fst snd].
  set (dx := (qx - px)%Q). set (dy := (qy - py)%Q).
  destruct (Qeq_bool (dx * dx + dy * dy) 0); [by apply Qle_bool_iff|].
  apply py_min_ge; apply Qle_bool_iff; [exact Hq|].
  apply Qmult_le_0_compat; [exact Hq|].
  apply Qinv_le_0_compat. nra.
Qed.

Definition idle : Controllers := fun _ _ _ => [].

Lemma attack_adds_truncated_damage_and_notifies_witness :
  attack (maths := spec_maths) arena10
         (deliver (maths := spec_maths) arena10 idle 1) 0
         (on_field [parrot 2 5 0 50; lumberjack 4 5 0 10;
                    lumberjack 9 5 0 10; lumberjack 3 5 0 100]) =
    Ok tt
       {| game := {| _turn := 0;
                     _robots := [parrot 2 5 0 80; lumberjack 4 5 0 17;
                                 lumberjack 9 5 0 10; lumberjack 3 5 0 100] |};
          sent := [(0%nat, attacked "Parrot"); (1%nat, attacked "Parrot")] |}.
Proof.
  destruct (attack_adds_truncated_damage_and_notifies spec_maths arena10)
    as (_ & _ & Hcall).
  - vm_compute. discriminate.
  - intros p q. apply spec_inverse_square_nonneg. vm_compute. discriminate.
  - rewrite (Hcall idle 0%nat _ 0 0%nat (parrot 2 5 0 50)); reflexivity.
Defined.

(** C8: every attack call visits the robots that are active when it
    begins.  The visit of a target in the attacker's cone either raises the
    exception of [int] or applies a damage that is at most the configured
    peak, and exactly the peak when the coordinates of the target equal
    those of the attacker.  When the peak and the falloff are not negative
    and the controllers do not react to the notification of a hit, the call
    returns, and the damage of every robot has grown by what its visit
    applied: nothing for a robot that was not active or not in the cone,
    the peak for an active robot in the cone at the attacker's coordinates,
    and never more than the peak. *)
Theorem point_blank_hit_is_peak_and_no_hit_exceeds_it :
  forall (maths : Maths) (settings : Settings),
    (forall send st robot_id i,
        py_index (length (_robots (game st))) robot_id = Some i ->
        attack settings send robot_id st =
          for_each (active_from 0 (_robots (game st)))
                   (attack_target settings send i) st) /\
    (forall send st rid tid attacker target,
        _robots (game st) !! rid = Some attacker ->
        _robots (game st) !! tid = Some target ->
        in_cone settings attacker target = true ->
        match hit_damage settings (rid =? tid)%nat attacker target with
        | inl e => attack_target settings send rid tid st = Raised e st
        | inr damage_ =>
            damage_ <= attack_damage settings /\
            (coords_eqb (rid =? tid)%nat (coords attacker) (coords target)
               = true -> damage_ = attack_damage settings) /\
            attack_target settings send rid tid st =
              if damage_ =? 0 then Ok tt st
              else send tid (attacked (class_name (instance attacker)))
                     (set_robots
                        (<[tid := with_damage (damage target + damage_)
                                              target]>
                           (_robots (game st))) st)
        end) /\
    (forall react depth st robot_id i attacker,
        0 <= attack_damage settings ->
        (forall p q,
            fle (Fin 0) (get_inverse_square p q (attack_damage settings))
              = true) ->
        (forall n i by_, react n i (attacked by_) = []) ->
        py_index (length (_robots (game st))) robot_id = Some i ->
        _robots (game st) !! i = Some attacker ->
        exists st',
          attack settings (deliver settings react (S depth)) robot_id st =
            Ok tt st' /\
          forall j target,
            _robots (game st) !! j = Some target ->
            let applied :=
              attack_damage_on settings (i =? j)%nat attacker target in
            exists target',
              _robots (game st') !! j = Some target' /\
              damage target' =
                damage target +
                (if (damage target <? 100) && in_cone settings attacker target
                 then applied else 0) /\
              applied <= attack_damage settings /\
              (coords_eqb (i =? j)%nat (coords attacker) (coords target)
                 = true -> applied = attack_damage settings)).
Proof.
  intros maths settings. split; [|split].
  - intros send st robot_id i Hi. by rewrite attack_eq, Hi.
  - intros send st rid tid a t Ha Ht Hcone.
    rewrite (attack_target_eq settings send rid tid st a t Ha Ht).
    unfold in_cone in Hcone. rewrite Hcone.
    destruct (hit_damage settings (rid =? tid)%nat a t) as [e|d] eqn:Hhit;
      [reflexivity|].
    split; [by eapply hit_damage_le_peak|]. split; [|reflexivity].
    intros Heq. rewrite hit_damage_point_blank in Hhit by exact Heq.
    congruence.
  - intros react depth st robot_id i a Hp Hf Hpassive Hi Ha.
    eexists. split; [by apply attack_call_passive|].
    intros j t Ht applied. cbn [game _robots].
    rewrite list_lookup_imap, Ht. cbn [fmap option_fmap option_map].
    eexists. split; [reflexivity|].
    pose proof (attack_damage_on_nonneg settings Hp Hf (i =? j)%nat a t)
      as Hnn.
    fold applied in Hnn. split; [|split].
    + unfold struck, hit_by. fold applied.
      destruct (damage t <? 100); [|simpl; lia].
      destruct (in_cone settings a t); [|simpl; lia].
      destruct (0 <? applied) eqn:E; simpl; [reflexivity|].
      apply Z.ltb_ge in E. lia.
    + apply (attack_damage_on_le_peak settings Hp Hf).
    + apply attack_damage_on_point_blank.
Qed.

(** The attacker, at damage 50, shares its coordinates with robot 1 and has
    robot 2 two units ahead: the call adds the peak of 30 to the attacker
    and to robot 1, and 7 to robot 2. *)
Lemma point_blank_hit_is_peak_and_no_hit_exceeds_it_witness :
  exists st',
    (attack (maths := spec_maths) arena10
            (deliver (maths := spec_maths) arena10 idle 1) 0
            (on_field [parrot 2 5 0 50; lumberjack 2 5 0 10;
                       lumberjack 4 5 0 10]) = Ok tt st' /\
     forall j target,
       [parrot 2 5 0 50; lumberjack 2 5 0 10; lumberjack 4 5 0 10] !! j
         = Some target ->
       let applied :=
         attack_damage_on (maths := spec_maths) arena10 (0 =? j)%nat
                          (parrot 2 5 0 50) target in
       exists target',
         _robots (game st') !! j = Some target' /\
         damage target' =
           damage target +
           (if (damage target <? 100)
               && in_cone (maths := spec_maths) arena10 (parrot 2 5 0 50)
                          target
            then applied else 0) /\
         applied <= 30 /\
         (coords_eqb (0 =? j)%nat (coords (parrot 2 5 0 50)) (coords target)
            = true -> applied = 30)) /\
    map damage (_robots (game st')) = [80; 40; 17].
Proof.
  destruct (point_blank_hit_is_peak_and_no_hit_exceeds_it spec_maths arena10)
    as (_ & _ & Hcall).
  destruct (Hcall idle 0%nat
              (on_field [parrot 2 5 0 50; lumberjack 2 5 0 10;
                         lumberjack 4 5 0 10])
              0 0%nat (parrot 2 5 0 50))
    as (st' & Hrun & Hall).
  - vm_compute. discriminate.
  - intros p q. apply spec_inverse_square_nonneg. vm_compute. discriminate.
  - reflexivity.
  - reflexivity.
  - reflexivity.
  - exists st'. split; [split; [exact Hrun | exact Hall]|].
    vm_compute in Hrun. injection Hrun as <-. reflexivity.
Defined.

(** ** Damage *)

Definition damage_nonneg (r : Robot) : Prop := 0 <= damage r.

Definition damage_capped (settings : Settings) (r : Robot) : Prop :=
  damage r <= 99 + attack_damage settings.

Lemma same_damage_refl st : same_damage st st.
Proof. reflexivity. Qed.

Lemma same_damage_trans a b c :
  same_damage a b -> same_damage b c -> same_damage a c.
Proof. unfold same_damage. congruence. Qed.

Lemma same_damage_lookup st st' j t' :
  same_damage st st' -> _robots (game st') !! j = Some t' ->
  exists t, _robots (game st) !! j = Some t /\ damage t = damage t'.
Proof.
  unfold same_damage. intros H Hj.
  assert (Hm : (damage <$> _robots (game st')) !! j = Some (damage t')).
  { rewrite list_lookup_fmap, Hj. reflexivity. }
  change (map damage (_robots (game st'))) with (damage <$> _robots (game st'))
    in H.
  change (map damage (_robots (game st))) with (damage <$> _robots (game st))
    in H.
  rewrite H, list_lookup_fmap in Hm.
  destruct (_robots (game st) !! j) as [t|]; [|discriminate].
  exists t. split; [reflexivity|]. simpl in Hm. congruence.
Qed.

Lemma same_damage_update_ref {maths : Maths} i f :
  (forall r, damage (f r) = damage r) ->
  keeps_rel same_damage (update_ref i f).
Proof.
  intros Hf st. rewrite update_ref_eq.
  destruct (_robots (game st) !! i) as [r|] eqn:Hr; simpl; [|reflexivity].
  unfold same_damage. simpl.
  change (map damage ?l) with (damage <$> l).
  rewrite list_fmap_insert, Hf. apply list_insert_id.
  rewrite list_lookup_fmap, Hr. reflexivity.
Qed.

Lemma same_damage_set_robot_attr {maths : Maths} i f :
  (forall r, damage (f r) = damage r) ->
  keeps_rel same_damage (_set_robot_attr i f).
Proof.
  intros Hf. unfold _set_robot_attr.
  apply (keeps_rel_bind _ same_damage_trans).
  - apply keeps_rel_index, same_damage_refl.
  - intros k. by apply same_damage_update_ref.
Qed.

Section Capped.
Context {maths : Maths} (settings : Settings).

Lemma same_damage_get_robot_attr {A} i (attr : Robot -> A) :
  keeps_rel same_damage (_get_robot_attr i attr ≫= fun _ => mret tt).
Proof.
  intros st. unfold mbind, M_bind, bind. rewrite get_robot_attr_eq.
  destruct (py_index _ _) as [k|]; [|reflexivity].
  destruct (_ !! k); reflexivity.
Qed.

Lemma same_damage_perform send c :
  no_attack c -> keeps_rel same_damage (perform settings send c).
Proof.
  destruct c as [i h|i v|i|a i]; simpl; intros H.
  - unfold set_heading.
    apply (keeps_rel_bind _ same_damage_trans);
      [by apply same_damage_set_robot_attr|]. intros _.
    apply (keeps_rel_bind _ same_damage_trans);
      [apply keeps_rel_lift, same_damage_refl|]. intros _.
    apply keeps_rel_ret, same_damage_refl.
  - by apply same_damage_set_robot_attr.
  - destruct H.
  - destruct a; apply same_damage_get_robot_attr.
Qed.

Lemma same_damage_deliver react depth i by_ :
  (forall n j name, Forall no_attack (react n j (attacked name))) ->
  keeps_rel same_damage (deliver settings react depth i (attacked by_)).
Proof.
  intros Hreact st. destruct depth as [|d]; simpl; [reflexivity|].
  apply (same_damage_trans _
           {| game := game st; sent := sent st ++ [(i, attacked by_)] |});
    [reflexivity|].
  apply (keeps_rel_for_each same_damage same_damage_refl same_damage_trans).
  intros c Hc. apply same_damage_perform.
  specialize (Hreact (length (sent st)) i by_).
  rewrite Forall_forall in Hreact. by apply Hreact.
Qed.

Section Send.
Variable send : nat -> event -> M unit.
Hypothesis send_capped : forall i ev, keeps (damage_capped settings) (send i ev).
Hypothesis send_same_damage :
  forall i by_, keeps_rel same_damage (send i (attacked by_)).

Lemma attack_loop_capped rid : forall l st,
  NoDup l ->
  (forall i t, i ∈ l -> _robots (game st) !! i = Some t -> damage t < 100) ->
  holds (damage_capped settings) st ->
  holds (damage_capped settings)
        (state_of (for_each l (attack_target settings send rid) st)).
Proof.
  induction l as [|i l IH]; intros st Hnd Hact Hcap; [exact Hcap|].
  apply NoDup_cons in Hnd as [Hi Hnd].
  simpl. unfold mbind, M_bind, bind.
  destruct (_robots (game st) !! rid) as [a|] eqn:Ha;
    [|rewrite attack_target_out; auto].
  destruct (_robots (game st) !! i) as [t|] eqn:Ht;
    [|rewrite attack_target_out; auto].
  rewrite (attack_target_eq settings send rid i st a t Ha Ht).
  assert (Hrest : forall st1, same_damage st st1 ->
             holds (damage_capped settings) st1 ->
             holds (damage_capped settings)
               (state_of (for_each l (attack_target settings send rid) st1))).
  { intros st1 Hsame Hcap1. apply IH; auto.
    intros j t' Hj Hlook.
    destruct (same_damage_lookup st st1 j t' Hsame Hlook) as (t0 & H0 & <-).
    eapply Hact; [by right | exact H0]. }
  destruct (is_in_angle _ _ _ _); [|by apply Hrest].
  destruct (hit_damage settings (rid =? i)%nat a t) as [e|d] eqn:Hhit;
    [exact Hcap|].
  destruct (d =? 0); [by apply Hrest|].
  set (st_hit := set_robots _ st).
  assert (Hcap_hit : holds (damage_capped settings) st_hit).
  { eapply holds_insert; eauto. intros _. unfold damage_capped. simpl.
    pose proof (hit_damage_le_peak settings _ a t d Hhit).
    pose proof (Hact i t ltac:(left) Ht). lia. }
  pose proof (send_capped i (attacked (class_name (instance a))) st_hit
                Hcap_hit) as Hcap1.
  pose proof (send_same_damage i (class_name (instance a)) st_hit) as Hsame.
  destruct (send i _ st_hit) as [[] st1|e st1|st1]; simpl in *; auto.
  apply IH; auto.
  intros j t' Hj Hlook.
  destruct (same_damage_lookup st_hit st1 j t' Hsame Hlook) as (t0 & H0 & <-).
  unfold st_hit in H0. simpl in H0.
  rewrite list_lookup_insert_ne in H0 by (intros ->; auto).
  eapply Hact; [by right | exact H0].
Qed.

Lemma attack_capped rid : keeps (damage_capped settings) (attack settings send rid).
Proof.
  intros st Hcap. rewrite attack_eq.
  destruct (py_index _ _) as [i|]; [|exact Hcap].
  apply attack_loop_capped; [apply active_from_NoDup| |exact Hcap].
  intros k t Hk Ht. apply active_from_elem in Hk as (t' & _ & Ht' & Hd).
  rewrite Nat.sub_0_r in Ht'. congruence.
Qed.

Lemma perform_capped c : keeps (damage_capped settings) (perform settings send c).
Proof.
  destruct c as [i h|i v|i|a i]; simpl.
  - unfold set_heading.
    apply (keeps_rel_bind _ (keeps_trans (damage_capped settings))).
    + apply keeps_set_robot_attr. auto.
    + intros _.
      apply (keeps_rel_bind _ (keeps_trans (damage_capped settings)));
        [apply keeps_lift|]. intros _. apply keeps_ret.
  - apply keeps_set_robot_attr. auto.
  - apply attack_capped.
  - destruct a;
      (apply (keeps_rel_bind _ (keeps_trans (damage_capped settings)));
       [apply keeps_get_robot_attr | intros _; apply keeps_ret]).
Qed.
End Send.

Lemma deliver_capped react :
  (forall n j name, Forall no_attack (react n j (attacked name))) ->
  forall depth i ev,
    keeps (damage_capped settings) (deliver settings react depth i ev).
Proof.
  intros Hreact. induction depth as [|d IH]; intros i ev st H; [exact H|].
  simpl.
  apply (keeps_for_each (damage_capped settings) _
           (perform settings (deliver settings react d))); [|exact H].
  intros c _. apply perform_capped; [exact IH|].
  intros j by_. by apply same_damage_deliver.
Qed.
End Capped.

(** C3, as the code has it: with a peak damage and a falloff that are not
    negative, every robot starts with damage 0 and no run, whatever the
    controllers do and however it ends, makes a damage negative.  Damage is
    not capped at 100: a hit adds up to the peak to a robot that was below
    100 when the attack call began, so that damage stays at most 99 plus the
    peak as long as no controller attacks while it handles the notification
    of a hit. *)
Theorem damage_nonneg_and_capped_by_last_hit :
  forall (maths : Maths) (settings : Settings),
    0 <= attack_damage settings ->
    (forall p q,
        fle (Fin 0) (get_inverse_square p q (attack_damage settings)) = true) ->
    (forall robot_classes draws g,
        init settings robot_classes draws = Some g ->
        Forall (fun r => damage r = 0) (_robots g)) /\
    (forall react time depth st,
        holds damage_nonneg st ->
        holds damage_nonneg (state_of (play settings react time depth st))) /\
    (forall react time depth st,
        (forall n j name, Forall no_attack (react n j (attacked name))) ->
        holds (damage_capped settings) st ->
        holds (damage_capped settings)
              (state_of (play settings react time depth st))).
Proof.
  intros maths settings Hp Hf. split; [|split].
  - intros classes draws g. apply init_Forall. reflexivity.
  - intros react time depth.
    apply (keeps_play settings damage_nonneg any_command);
      unfold damage_nonneg; auto using all_commands_any.
    intros same a r Hr _. simpl.
    pose proof (attack_damage_on_nonneg settings Hp Hf same a r). lia.
  - intros react time depth st Hreact.
    apply (keeps_run settings (damage_capped settings)); auto.
    intros i ev. by apply deliver_capped.
Qed.

(** A controller that attacks with robot 0 whenever that robot is shown the
    radar. *)
Definition ambusher : Controllers :=
  fun _ receiver ev =>
    match receiver, ev with
    | O, radar_updated _ => [Attack 0]
    | _, _ => []
    end.

(** Robot 1, at damage 90, is one unit ahead of robot 0, which attacks in
    the first turn with a peak of 30: robot 1 ends at 120, within 99 plus
    the peak. *)
Lemma damage_nonneg_and_capped_by_last_hit_witness :
  holds (damage_capped arena10)
        (state_of (play (maths := spec_maths) arena10 ambusher inject_Z 2
                        (on_field [parrot 2 5 0 0; lumberjack 3 5 0 90]))) /\
  map damage
      (_robots (game (state_of
         (play (maths := spec_maths) arena10 ambusher inject_Z 2
               (on_field [parrot 2 5 0 0; lumberjack 3 5 0 90]))))) =
    [30; 120].
Proof.
  split; [|reflexivity].
  destruct (damage_nonneg_and_capped_by_last_hit spec_maths arena10)
    as (_ & _ & H).
  - vm_compute. discriminate.
  - intros p q. apply spec_inverse_square_nonneg. vm_compute. discriminate.
  - apply H.
    + intros n [|j] name; constructor.
    + repeat constructor; vm_compute; discriminate.
Defined.

(** C3 fails as stated: robot 0, at damage 90, is one unit ahead of robot 1,
    which attacks with a peak of 30; robot 0 ends at 120. *)
Lemma attack_raises_damage_above_100 :
  (damage <$>
     _robots (game (state_of
       (attack (maths := spec_maths) arena10
               (deliver (maths := spec_maths) arena10 idle 1) 1
               (on_field [parrot 2 5 0 90; lumberjack 1 5 0 0]))))) !! 0%nat
    = Some 120 /\
  100 < 120.
Proof. split; reflexivity. Qed.

(** ** Collisions *)

(** A key of [line_segs] that cannot be unpacked into a pair. *)
Definition unsplittable (k : seg_id) : Prop :=
  match k with
  | robot _ => True
  | border s => String.length s <> 2%nat
  end.

Lemma unpack_pair_raises k :
  unsplittable k ->
  exists e, (e = ValueError \/ e = TypeError) /\
            forall st, unpack_pair k st = Raised e st.
Proof.
  destruct k as [s|i]; simpl; intros H.
  - exists ValueError. split; [by left|]. intros st.
    destruct s as [|a [|b [|c s]]]; try reflexivity. by destruct H.
  - exists TypeError. split; [by right|]. reflexivity.
Qed.

Lemma dict_set_keys {V} (P : seg_id -> Prop) k (v : V) d :
  P k -> Forall (fun kv => P (fst kv)) d ->
  Forall (fun kv => P (fst kv)) (dict_set k v d).
Proof.
  intros Hk. induction 1 as [|[k' v'] d Hk' Hd IH]; simpl.
  - by repeat constructor.
  - destruct (seg_id_eqb k' k); constructor; auto.
Qed.

Lemma border_segs_keys settings :
  Forall (fun kv => unsplittable (fst kv)) (border_segs settings).
Proof.
  unfold border_segs. destruct (battlefield_size settings).
  repeat constructor; simpl; discriminate.
Qed.

(** [_get_line_seg] returns a segment or raises, and leaves the state as it
    is. *)
Lemma get_line_seg_cases {maths : Maths} r now st :
  (exists seg, _get_line_seg r now st = Ok seg st) \/
  (exists e, _get_line_seg r now st = Raised e st).
Proof.
  unfold _get_line_seg. destruct (coords r) as [x y].
  destruct (then_ r) as [t|]; [|right; by eexists].
  destruct (heading r) as [h| | |];
    solve [left; by eexists | right; by eexists].
Qed.

Lemma get_line_seg_state {maths : Maths} r now st seg st' :
  _get_line_seg r now st = Ok seg st' -> st' = st.
Proof.
  intros H. destruct (get_line_seg_cases r now st) as [[s Hs]|[e He]];
    congruence.
Qed.

Section Collisions.
Context {maths : Maths} (settings : Settings).

Lemma add_robot_segs_keys robots now : forall segs st segs' st',
  Forall (fun kv => unsplittable (fst kv)) segs ->
  add_robot_segs robots now segs st = Ok segs' st' ->
  Forall (fun kv => unsplittable (fst kv)) segs' /\ st' = st.
Proof.
  induction robots as [|i robots IH]; intros segs st segs' st' Hk; simpl.
  - intros [= <- <-]. auto.
  - unfold mbind at 1. unfold M_bind, bind. rewrite robot_ref_eq.
    destruct (_robots (game st) !! i) as [r|]; [|discriminate].
    unfold mbind at 1. unfold M_bind, bind.
    destruct (get_line_seg_cases r now st) as [[seg ->]|[e ->]];
      [|discriminate].
    apply IH. apply dict_set_keys; [exact I | exact Hk].
Qed.

Lemma get_intersections_keys (P : seg_id -> Prop) line_segs :
  Forall (fun kv => P (fst kv)) line_segs ->
  Forall (fun kv => P (fst kv)) (_get_intersections line_segs).
Proof.
  unfold _get_intersections. generalize (crossings line_segs).
  intros found. induction 1 as [|[k a] segs Hk _ IH]; csimpl.
  - constructor.
  - destruct (found k a); [exact IH|]. constructor; [exact Hk | exact IH].
Qed.

(** The loops of lines 191 and 205 stop at the first key of [bumps]. *)
Lemma for_each_unpack_raises {X} (key_of : X -> seg_id) (l : list X) x :
  unsplittable (key_of x) ->
  exists e, (e = ValueError \/ e = TypeError) /\
    forall st,
      for_each (x :: l) (fun y => unpack_pair (key_of y) ≫= fun _ => mret tt)
               st = Raised e st.
Proof.
  intros H. destruct (unpack_pair_raises _ H) as (e & He & Hraise).
  exists e. split; [exact He|]. intros st. simpl.
  unfold mbind, M_bind, bind. by rewrite Hraise.
Qed.
End Collisions.

(** With a key in [bumps], [_move_robots] does not get past line 191. *)
Lemma move_robots_stops_at_first_bump :
  forall (maths : Maths) (settings : Settings) (time : Z -> Q)
         (robots : list nat) (st : State) (line_segs : list (seg_id * segment)),
    add_robot_segs robots (time (_turn (game st))) (border_segs settings) st =
      Ok line_segs st ->
    _get_intersections line_segs <> [] ->
    exists e, (e = ValueError \/ e = TypeError) /\
              _move_robots settings time robots st = Raised e st.
Proof.
  intros maths settings time robots st line_segs Hsegs Hbumps.
  destruct (add_robot_segs_keys robots _ _ _ _ _ (border_segs_keys settings)
              Hsegs) as [Hkeys _].
  pose proof (get_intersections_keys unsplittable line_segs Hkeys) as Hb.
  destruct (_get_intersections line_segs) as [|[k found] bumps] eqn:E;
    [congruence|].
  apply Forall_cons in Hb as [Hk _]. simpl in Hk.
  destruct (unpack_pair_raises k Hk) as (e & He & Hraise).
  exists e. split; [exact He|].
  unfold _move_robots.
  unfold mbind at 1. unfold M_bind, bind at 1. unfold get_game at 1.
  unfold mbind at 1. unfold M_bind, bind at 1. rewrite Hsegs.
  unfold mbind at 1. unfold M_bind, bind at 1. rewrite E.
  simpl. unfold mbind, M_bind, bind. by rewrite Hraise.
Qed.

(** C2: [_move_robots] raises as soon as one segment of the turn, of a
    robot or of a border, meets another one: the loop of line 191 takes
    each key of [bumps], a border name or a robot id, for a pair.  The
    exception is a [ValueError] or a [TypeError], and the game is left as it
    was before the call. *)
Theorem move_robots_raises_on_any_crossing :
  forall (maths : Maths) (settings : Settings) (time : Z -> Q)
         (robots : list nat) (st : State) (line_segs : list (seg_id * segment)),
    add_robot_segs robots (time (_turn (game st))) (border_segs settings) st =
      Ok line_segs st ->
    _get_intersections line_segs <> [] ->
    exists e, (e = ValueError \/ e = TypeError) /\
              _move_robots settings time robots st = Raised e st.
Proof. exact move_robots_stops_at_first_bump. Qed.

(** Robot 0 drives from (5, 5) into the right border of an arena of 10 by
    10. *)
Lemma move_robots_raises_on_any_crossing_witness :
  exists e, (e = ValueError \/ e = TypeError) /\
    _move_robots (maths := open_maths) arena10
      (fun t => inject_Z (2 * t)) [0; 1]%nat
      {| game := {| _turn := 1;
                    _robots := [parrot 5 5 5 0; lumberjack 2 2 0 0] |};
         sent := [] |} =
    Raised e
      {| game := {| _turn := 1;
                    _robots := [parrot 5 5 5 0; lumberjack 2 2 0 0] |};
         sent := [] |}.
Proof.
  eapply (move_robots_raises_on_any_crossing open_maths arena10).
  - reflexivity.
  - vm_compute. discriminate.
Defined.

(** ** Runs evaluated *)

(** A clock that advances by two seconds per turn. *)
Definition clock2 (t : Z) : Q := inject_Z (2 * t).

Definition in_turn (t : Z) (rs : list Robot) : State :=
  {| game := {| _turn := t; _robots := rs |}; sent := [] |}.

(** The line segments of the doctest of [_get_intersections]. *)
Definition doctest_segs : list (seg_id * segment) :=
  [ (border "foo", (pt 1 1, pt 5 5));
    (border "bar", (pt 1 3, pt 3 1));
    (border "baz", (pt 2 4, pt 4 2)) ].

(** C4: [_get_intersections] keeps every crossing of a segment and chooses
    none: in the doctest of the source, "foo", which starts at (1, 1), meets
    "bar" at (2, 2) and "baz" at (3, 3).  In a turn where the path of robot
    0, from (5, 5) to (15, 5), crosses the path of robot 1 and then the
    right border, [_move_robots] raises and no robot has moved. *)
Theorem crossings_are_not_ranked_and_the_move_aborts :
  _get_intersections (maths := spec_maths) doctest_segs =
    [ (border "foo", [(border "bar", pt 2 2); (border "baz", pt 3 3)]);
      (border "bar", [(border "foo", pt 2 2)]);
      (border "baz", [(border "foo", pt 3 3)]) ] /\
  (let st := in_turn 1 [parrot 5 5 5 0;
                        with_heading (Fin (3 # 2)) (lumberjack 7 3 2 0)] in
   (exists a b line_segs,
       add_robot_segs (maths := open_maths) [0; 1]%nat (clock2 1)
                      (border_segs arena10) st = Ok line_segs st /\
       dict_get (robot 0) (_get_intersections (maths := open_maths) line_segs)
         = Some [(border "right", a); (robot 1, b)] /\
       flt (fst b) (fst a) = true) /\
   _move_robots (maths := open_maths) arena10 clock2 [0; 1]%nat st =
     Raised ValueError st /\
   _move_robots (maths := spec_maths) arena10 clock2 [0; 1]%nat st =
     Raised ValueError st).
Proof.
  split; [reflexivity|]. split; [|split; reflexivity].
  eexists _, _, _. split; [reflexivity|]. split; reflexivity.
Qed.

(** A controller that sets the speed of robot 0 to 5 on a radar update. *)
Definition speeder : Controllers :=
  fun _ receiver ev =>
    match receiver, ev with
    | O, radar_updated _ => [SetSpeed 0 (Fin 5)]
    | _, _ => []
    end.

(** C5: robot 0 stands at (5, 5), heads for the right border of an arena of
    10 by 10 at speed 5 and has two seconds to move, so that its path
    crosses the border at (10, 5).  The run ends in the first turn with a
    [ValueError]: the robot is where it was, its speed is still 5, and no
    "bumped" notification was sent. *)
Theorem robot_running_into_a_border_aborts_the_run :
  let st_end :=
    {| game := {| _turn := 1;
                  _robots := [parrot 5 5 5 0; lumberjack 2 2 0 0] |};
       sent := [ (0%nat, started (pt 5 5)); (1%nat, started (pt 2 2));
                 (0%nat, radar_updated [("Parrot", pt 5 5);
                                        ("Lumberjack", pt 2 2)]);
                 (1%nat, radar_updated [("Parrot", pt 5 5);
                                        ("Lumberjack", pt 2 2)]) ] |} in
  play (maths := open_maths) arena10 speeder clock2 1
       (on_field [parrot 5 5 0 0; lumberjack 2 2 0 0]) =
    Raised ValueError st_end /\
  play (maths := spec_maths) arena10 speeder clock2 1
       (on_field [parrot 5 5 0 0; lumberjack 2 2 0 0]) =
    Raised ValueError st_end.
Proof. split; reflexivity. Qed.

(** A controller that attacks four times with robot 0 when it handles the
    third notification of the run, the first radar update. *)
Definition striker : Controllers :=
  fun n _ _ =>
    if (n =? 2)%nat then [Attack 0; Attack 0; Attack 0; Attack 0] else [].

Definition one_turn : Settings := {|
  battlefield_size := (10, 10);
  max_speed := 10;
  attack_angle := 1;
  attack_damage := 30;
  max_turns := 1;
  radar_interval := 100
|}.

(** What is left of a run that ended normally: the winners, the turn
    counter, the damage of each robot, the robots still active, and the
    receivers of the notifications. *)
Definition summary (o : outcome (list string))
  : option (list string * Z * list Z * list nat * list nat) :=
  match o with
  | Ok winners st =>
      Some (winners, _turn (game st), map damage (_robots (game st)),
            active_from 0 (_robots (game st)), map fst (sent st))
  | _ => None
  end.

(** ** The borders under the segment test of the spec *)

Lemma closed_corner_crossing (xm ym : Q) :
  (0 < xm)%Q -> (0 < ym)%Q ->
  exists p,
    crossing (fun t => Qle_bool 0 t && Qle_bool t 1)
             (0, 0)%Q (0%Q, ym) (0%Q, ym) (xm, ym) = Some p.
Proof.
  intros Hx Hy. unfold crossing. cbn [fst snd].
  set (denom := ((0 - 0) * (ym - ym) - (ym - 0) * (xm - 0))%Q).
  assert (Hd : (denom == - (ym * xm))%Q) by (unfold denom; ring).
  assert (Hneg : (denom < 0)%Q) by (rewrite Hd; nra).
  destruct (Qeq_bool denom 0) eqn:E.
  { apply Qeq_bool_iff in E. lra. }
  set (t := (denom / denom)%Q).
  set (u := (((0 - 0) * (ym - 0) - (ym - 0) * (0 - 0)) / denom)%Q).
  assert (Ht : (t == 1)%Q) by (unfold t; field; lra).
  assert (Hu : (u == 0)%Q) by (unfold u; field; lra).
  assert (H1 : Qle_bool 0 t = true) by (apply Qle_bool_iff; rewrite Ht; lra).
  assert (H2 : Qle_bool t 1 = true) by (apply Qle_bool_iff; rewrite Ht; lra).
  assert (H3 : Qle_bool 0 u = true) by (apply Qle_bool_iff; rewrite Hu; lra).
  assert (H4 : Qle_bool u 1 = true) by (apply Qle_bool_iff; rewrite Hu; lra).
  rewrite H1, H2, H3, H4. simpl. eauto.
Qed.

Lemma spec_corner_crossing (xm ym : Q) :
  (0 < xm)%Q -> (0 < ym)%Q ->
  exists p,
    spec_seg_intersect (pt 0 0) (pt 0 ym) (pt 0 ym) (pt xm ym) = Some p.
Proof. apply closed_corner_crossing. Qed.

Lemma dict_set_after_borders settings i (seg : segment) d :
  dict_set (robot i) seg (border_segs settings ++ d) =
    border_segs settings ++ dict_set (robot i) seg d.
Proof. unfold border_segs. by destruct (battlefield_size settings). Qed.

Lemma add_robot_segs_after_borders {maths : Maths} settings robots now :
  forall d st,
    match add_robot_segs robots now (border_segs settings ++ d) st with
    | Ok segs st' => st' = st /\ exists d', segs = border_segs settings ++ d'
    | Raised _ st' => st' = st
    | Cut _ => False
    end.
Proof.
  induction robots as [|i robots IH]; intros d st; simpl.
  - split; [reflexivity | by exists d].
  - unfold mbind at 1. unfold M_bind, bind. rewrite robot_ref_eq.
    destruct (_robots (game st) !! i) as [r|]; [|reflexivity].
    unfold mbind at 1. unfold M_bind, bind.
    destruct (get_line_seg_cases r now st) as [[seg ->]|[e ->]];
      [|reflexivity].
    rewrite dict_set_after_borders. apply IH.
Qed.

Lemma spec_borders_meet settings d :
  0 < fst (battlefield_size settings) ->
  0 < snd (battlefield_size settings) ->
  _get_intersections (maths := spec_maths) (border_segs settings ++ d) <> [].
Proof.
  intros Hx Hy. unfold border_segs.
  destruct (battlefield_size settings) as [x_max y_max]. simpl in Hx, Hy.
  destruct (spec_corner_crossing (inject_Z x_max) (inject_Z y_max))
    as [p Hp].
  { change 0%Q with (inject_Z 0). by rewrite <- Zlt_Qlt. }
  { change 0%Q with (inject_Z 0). by rewrite <- Zlt_Qlt. }
  unfold _get_intersections. cbn [app]. csimpl.
  unfold crossings at 1. csimpl. cbn [seg_intersect spec_maths fst snd].
  rewrite Hp. discriminate.
Qed.

(** With the segment test of the spec, which counts a shared end point as a
    crossing, the borders of an arena of positive size meet at the corners:
    [_move_robots] never returns, whatever the robots do. *)
Lemma spec_move_robots_always_raises settings time robots st :
  0 < fst (battlefield_size settings) ->
  0 < snd (battlefield_size settings) ->
  exists e,
    _move_robots (maths := spec_maths) settings time robots st = Raised e st.
Proof.
  intros Hx Hy.
  pose proof (add_robot_segs_after_borders (maths := spec_maths) settings
                robots (time (_turn (game st))) [] st) as H.
  rewrite app_nil_r in H.
  destruct (add_robot_segs robots (time (_turn (game st)))
              (border_segs settings) st) as [segs st'|e st'|st'] eqn:Hsegs;
    [|subst st'|destruct H].
  - destruct H as (-> & d' & ->).
    destruct (move_robots_stops_at_first_bump spec_maths settings time robots
                st _ Hsegs (spec_borders_meet settings d' Hx Hy))
      as (e & _ & He).
    by exists e.
  - exists e. unfold _move_robots.
    unfold mbind at 1. unfold M_bind, bind at 1. unfold get_game at 1.
    unfold mbind at 1. unfold M_bind, bind at 1. by rewrite Hsegs.
Qed.

(** Hence, with that segment test, a run that enters the turn loop does not
    leave it normally: the first turn ends with an exception (or is cut). *)
Lemma spec_turn_loop_never_completes settings time send n robots st :
  0 < fst (battlefield_size settings) ->
  0 < snd (battlefield_size settings) ->
  (1 <? Z.of_nat (length robots)) && (_turn (game st) <? max_turns settings)
    = true ->
  forall st',
    turn_loop (maths := spec_maths) settings time send n robots st <> Ok tt st'.
Proof.
  intros Hx Hy Hguard st'. destruct n as [|n]; simpl;
    unfold mbind at 1; unfold M_bind, bind, get_game; rewrite Hguard;
    [discriminate|].
  unfold mbind at 1. unfold M_bind, bind, put_game.
  unfold mbind at 1. unfold M_bind, bind.
  destruct (_update_radar send robots _) as [[] st1|e st1|st1];
    [|discriminate|discriminate].
  unfold mbind at 1. unfold M_bind, bind.
  destruct (spec_move_robots_always_raises settings time robots st1 Hx Hy)
    as [e ->].
  discriminate.
Qed.

(** ** Relations that every call of the engine respects *)

(** The robots of two states, record by record. *)
Definition robots_rel (rel : Robot -> Robot -> Prop) (st st' : State) : Prop :=
  Forall2 rel (_robots (game st)) (_robots (game st')).

Section Generic.
Context {maths : Maths} (settings : Settings).

(** A relation between the state before and the state after; the updates of
    a record, the events and the commands under which it is known to
    hold. *)
Variable R : State -> State -> Prop.
Variable U : Robot -> Robot -> Prop.
Variable E : event -> Prop.
Variable okc : command -> Prop.

Hypothesis R_refl : forall st, R st st.
Hypothesis R_trans : forall a b c, R a b -> R b c -> R a c.
Hypothesis R_update : forall st i r r',
  _robots (game st) !! i = Some r -> U r r' ->
  R st (set_robots (<[i := r']> (_robots (game st))) st).
Hypothesis R_turn : forall st,
  R st {| game := {| _turn := _turn (game st) + 1;
                     _robots := _robots (game st) |};
          sent := sent st |}.
Hypothesis R_log : forall st i ev,
  E ev -> R st {| game := game st; sent := sent st ++ [(i, ev)] |}.
Hypothesis U_heading :
  forall i r h, okc (SetHeading i h) -> U r (with_heading h r).
Hypothesis U_speed :
  forall i r v, okc (SetSpeed i v) ->
    U r (with_speed (py_min v (Fin (max_speed settings))) r).
Hypothesis U_damage : forall same a r,
  attack_damage_on settings same a r <> 0 ->
  U r (with_damage (damage r + attack_damage_on settings same a r) r).
Hypothesis U_move : forall r c t, U r (with_then (Some t) (with_coords c r)).
Hypothesis U_then : forall r t, U r (with_then (Some t) r).
Hypothesis E_started : forall c, E (started c).
Hypothesis E_radar : forall radar, E (radar_updated radar).
Hypothesis E_attacked : forall name, E (attacked name).

Let gbind {A B} := @keeps_rel_bind R R_trans A B.
Let geach {X} := @keeps_rel_for_each R R_refl R_trans X.

Lemma gen_robot_ref i : keeps_rel R (robot_ref i).
Proof. intros st. rewrite robot_ref_eq. destruct (_ !! i); apply R_refl. Qed.

Lemma gen_update_ref i f :
  (forall r, U r (f r)) -> keeps_rel R (update_ref i f).
Proof.
  intros Hf st. rewrite update_ref_eq.
  destruct (_robots (game st) !! i) as [r|] eqn:Hr; simpl;
    [by apply (R_update st i r) | apply R_refl].
Qed.

Lemma gen_set_robot_attr i f :
  (forall r, U r (f r)) -> keeps_rel R (_set_robot_attr i f).
Proof.
  intros Hf. unfold _set_robot_attr.
  apply gbind; [by apply keeps_rel_index|]. intros k.
  by apply gen_update_ref.
Qed.

Lemma gen_get_robot_attr {A} i (attr : Robot -> A) :
  keeps_rel R (_get_robot_attr i attr).
Proof.
  unfold _get_robot_attr, robot_at.
  apply gbind; [|intros r st; apply R_refl].
  apply gbind; [by apply keeps_rel_index|]. intros k. apply gen_robot_ref.
Qed.

Lemma gen_attack send rid :
  (forall i ev, E ev -> keeps_rel R (send i ev)) ->
  keeps_rel R (attack settings send rid).
Proof.
  intros Hsend. unfold attack.
  apply gbind; [by apply keeps_rel_index|]. intros k.
  apply gbind; [intros st; apply R_refl|]. intros targets.
  apply geach. intros tid _ st.
  destruct (_robots (game st) !! k) as [a|] eqn:Ha;
    [|rewrite attack_target_out; [apply R_refl | by left]].
  destruct (_robots (game st) !! tid) as [t|] eqn:Ht;
    [|rewrite attack_target_out; [apply R_refl | by right]].
  rewrite (attack_target_eq settings send k tid st a t Ha Ht).
  destruct (is_in_angle _ _ _ _); [|apply R_refl].
  destruct (hit_damage settings (k =? tid)%nat a t) as [e|d] eqn:Hhit;
    [apply R_refl|].
  destruct (d =? 0) eqn:Hd; [apply R_refl|].
  eapply R_trans; [|apply Hsend, E_attacked].
  apply (R_update st tid t); [exact Ht|].
  rewrite <- (hit_damage_on settings _ a t d Hhit). apply U_damage.
  rewrite (hit_damage_on settings _ a t d Hhit). by apply Z.eqb_neq.
Qed.

Lemma gen_perform send c :
  okc c ->
  (forall i ev, E ev -> keeps_rel R (send i ev)) ->
  keeps_rel R (perform settings send c).
Proof.
  intros Hc Hsend. destruct c as [i h|i v|i|a i]; simpl.
  - unfold set_heading. apply gbind.
    + apply gen_set_robot_attr. intros r. by apply (U_heading i).
    + intros _. apply gbind; [by apply keeps_rel_lift|].
      intros _ st. apply R_refl.
  - apply gen_set_robot_attr. intros r. by apply (U_speed i).
  - by apply gen_attack.
  - destruct a; (apply gbind; [apply gen_get_robot_attr|]);
      intros _ st; apply R_refl.
Qed.

Lemma gen_deliver react depth :
  all_commands okc react ->
  forall i ev, E ev -> keeps_rel R (deliver settings react depth i ev).
Proof.
  intros Hreact.
  induction depth as [|d IH]; intros i ev Hev st; simpl;
    [by apply R_log|].
  eapply R_trans; [by apply (R_log st i ev)|].
  apply geach. intros c Hc. apply gen_perform; [|exact IH].
  specialize (Hreact (length (sent st)) i ev).
  rewrite Forall_forall in Hreact. by apply Hreact.
Qed.

Section Send.
Variable time : Z -> Q.
Variable send : nat -> event -> M unit.
Hypothesis send_ok : forall i ev, E ev -> keeps_rel R (send i ev).

Lemma gen_update_radar robots : keeps_rel R (_update_radar send robots).
Proof.
  unfold _update_radar. apply gbind; [intros st; apply R_refl|]. intros g.
  apply geach. intros i _. apply send_ok, E_radar.
Qed.

Lemma gen_move_robots robots : keeps_rel R (_move_robots settings time robots).
Proof.
  unfold _move_robots. apply gbind; [intros st; apply R_refl|]. intros g.
  apply gbind.
  { generalize (border_segs settings).
    induction robots as [|i rs IH]; intros segs; simpl.
    - intros st. apply R_refl.
    - apply gbind; [apply gen_robot_ref|]. intros r.
      apply gbind; [|intros seg; apply IH].
      by apply keeps_rel_get_line_seg. }
  intros segs. apply gbind.
  { apply geach. intros [k c] _.
    apply gbind; [|intros _ st; apply R_refl].
    apply keeps_rel_unpack_pair, R_refl. }
  intros _. apply gbind.
  { apply geach. intros i _.
    apply gbind; [apply gen_robot_ref|]. intros r.
    destruct (dict_get _ _); [|intros st; apply R_refl].
    apply gen_update_ref. intros r'. apply U_move. }
  intros _. apply geach. intros k _.
  apply gbind; [|intros _ st; apply R_refl].
  apply keeps_rel_unpack_pair, R_refl.
Qed.

Lemma gen_turn_loop n robots :
  keeps_rel R (turn_loop settings time send n robots).
Proof.
  induction n as [|n IH]; intros st; simpl;
    unfold mbind at 1; unfold M_bind, bind, get_game;
    destruct (_ && _); try apply R_refl.
  unfold mbind at 1. unfold M_bind, bind, put_game.
  eapply R_trans; [apply R_turn|].
  assert (Hrest : keeps_rel R
            (_update_radar send robots ≫= fun _ =>
             _move_robots settings time robots ≫= fun _ =>
             turn_loop settings time send n robots)).
  { apply gbind; [apply gen_update_radar|]. intros _.
    apply gbind; [apply gen_move_robots|]. intros _. apply IH. }
  apply Hrest.
Qed.

(** The first loop of [run_robots]. *)
Lemma gen_start now l :
  keeps_rel R
    (for_each l (fun i =>
       robot_ref i ≫= fun r =>
       send i (started (coords r)) ≫= fun _ =>
       update_ref i (with_then (Some now)))).
Proof.
  apply geach. intros i _.
  apply gbind; [apply gen_robot_ref|]. intros r.
  apply gbind; [apply send_ok, E_started|]. intros _.
  apply gen_update_ref. intros r'. apply U_then.
Qed.

Lemma gen_run_robots : keeps_rel R (run_robots settings time send).
Proof.
  unfold run_robots. apply gbind; [intros st; apply R_refl|]. intros g.
  apply gbind; [apply gen_start|].
  intros _. apply gbind; [intros st; apply R_refl|]. intros robots.
  apply gen_turn_loop.
Qed.

Lemma gen_run : keeps_rel R (run settings time send).
Proof.
  unfold run. apply gbind; [apply gen_run_robots|]. intros _.
  apply gbind; [intros st; apply R_refl|]. intros g st. apply R_refl.
Qed.
End Send.

Lemma gen_play react time depth :
  all_commands okc react ->
  keeps_rel R (play settings react time depth).
Proof.
  intros Hreact. apply gen_run. intros i ev. by apply gen_deliver.
Qed.
End Generic.

Lemma robots_rel_update (rel : Robot -> Robot -> Prop) st i r r' :
  (forall x, rel x x) ->
  _robots (game st) !! i = Some r -> rel r r' ->
  robots_rel rel st (set_robots (<[i := r']> (_robots (game st))) st).
Proof.
  intros Hrefl Hi Hr. unfold robots_rel. simpl.
  rewrite <- (list_insert_id (_robots (game st)) i r Hi) at 1.
  apply Forall2_insert; [|exact Hr].
  apply Forall2_same_length_lookup. split; [reflexivity|].
  intros j x y Hx Hy. assert (x = y) as -> by congruence. apply Hrefl.
Qed.

Lemma robots_rel_refl (rel : Robot -> Robot -> Prop) st :
  (forall x, rel x x) -> robots_rel rel st st.
Proof.
  intros Hrefl. apply Forall2_same_length_lookup. split; [reflexivity|].
  intros j x y Hx Hy. assert (x = y) as -> by congruence. apply Hrefl.
Qed.

Lemma robots_rel_trans (rel : Robot -> Robot -> Prop) a b c :
  (forall x y z, rel x y -> rel y z -> rel x z) ->
  robots_rel rel a b -> robots_rel rel b c -> robots_rel rel a c.
Proof.
  intros Htrans. unfold robots_rel.
  generalize (_robots (game a)) (_robots (game b)) (_robots (game c)).
  intros la lb lc H. revert lc.
  induction H as [|x y la lb Hxy _ IH]; intros lc Hc; inversion Hc; subst;
    constructor; eauto.
Qed.

Lemma robots_rel_same_field {A} (f : Robot -> A) st st' :
  robots_rel (fun r r' => f r' = f r) st st' ->
  map f (_robots (game st')) = map f (_robots (game st)).
Proof.
  unfold robots_rel. induction 1 as [|x y l l' Hxy _ IH]; simpl;
    [reflexivity|]. by rewrite Hxy, IH.
Qed.

Lemma robots_rel_same_robots (rel : Robot -> Robot -> Prop) st st' :
  (forall x, rel x x) -> _robots (game st') = _robots (game st) ->
  robots_rel rel st st'.
Proof.
  intros Hrefl Heq. unfold robots_rel. rewrite Heq.
  by apply (robots_rel_refl rel st).
Qed.

Section Pointwise.
Context {maths : Maths} (settings : Settings).
Variable rel : Robot -> Robot -> Prop.
Variable okc : command -> Prop.
Hypothesis rel_refl : forall x, rel x x.
Hypothesis rel_trans : forall x y z, rel x y -> rel y z -> rel x z.
Hypothesis rel_heading :
  forall i r h, okc (SetHeading i h) -> rel r (with_heading h r).
Hypothesis rel_speed :
  forall i r v, okc (SetSpeed i v) ->
    rel r (with_speed (py_min v (Fin (max_speed settings))) r).
Hypothesis rel_damage : forall same a r,
  attack_damage_on settings same a r <> 0 ->
  rel r (with_damage (damage r + attack_damage_on settings same a r) r).
Hypothesis rel_move :
  forall r c t, rel r (with_then (Some t) (with_coords c r)).
Hypothesis rel_then : forall r t, rel r (with_then (Some t) r).

Lemma pointwise_deliver react depth receiver ev :
  all_commands okc react ->
  keeps_rel (robots_rel rel) (deliver settings react depth receiver ev).
Proof.
  intros Hreact.
  apply (gen_deliver settings (robots_rel rel) rel (fun _ => True) okc);
    auto.
  - intros st. by apply robots_rel_refl.
  - intros a b c. by apply robots_rel_trans.
  - intros. by eapply robots_rel_update.
  - intros. by apply robots_rel_same_robots.
Qed.

Lemma pointwise_play react time depth :
  all_commands okc react ->
  keeps_rel (robots_rel rel) (play settings react time depth).
Proof.
  intros Hreact.
  apply (gen_play settings (robots_rel rel) rel (fun _ => True) okc); auto.
  - intros st. by apply robots_rel_refl.
  - intros a b c. by apply robots_rel_trans.
  - intros. by eapply robots_rel_update.
  - intros. by apply robots_rel_same_robots.
  - intros. by apply robots_rel_same_robots.
Qed.
End Pointwise.

(** ** The turn counter *)

(** Only the turn loop changes the turn counter. *)
Definition same_turn (st st' : State) : Prop :=
  _turn (game st') = _turn (game st).

Lemma same_turn_refl st : same_turn st st.
Proof. reflexivity. Qed.

Lemma same_turn_trans a b c : same_turn a b -> same_turn b c -> same_turn a c.
Proof. unfold same_turn. congruence. Qed.

Section Turn.
Context {maths : Maths} (settings : Settings).

Lemma same_turn_deliver react depth :
  forall i ev, keeps_rel same_turn (deliver settings react depth i ev).
Proof.
  intros i ev.
  apply (gen_deliver settings same_turn (fun _ _ => True) (fun _ => True)
           any_command same_turn_refl same_turn_trans);
    try (intros; reflexivity); try (intros; exact I).
  apply all_commands_any.
Qed.

Lemma same_turn_update_radar send robots :
  (forall i ev, keeps_rel same_turn (send i ev)) ->
  keeps_rel same_turn (_update_radar send robots).
Proof.
  intros Hsend.
  apply (gen_update_radar same_turn (fun _ => True) same_turn_refl
           same_turn_trans); try (intros; exact I).
  intros i ev _. apply Hsend.
Qed.

Lemma same_turn_move_robots time robots :
  keeps_rel same_turn (_move_robots settings time robots).
Proof.
  apply (gen_move_robots settings same_turn (fun _ _ => True) same_turn_refl
           same_turn_trans);
    try (intros; reflexivity); try (intros; exact I).
Qed.

Lemma same_turn_start (send : nat -> event -> M unit) now l :
  (forall i ev, keeps_rel same_turn (send i ev)) ->
  keeps_rel same_turn
    (for_each l (fun i =>
       robot_ref i ≫= fun r =>
       send i (started (coords r)) ≫= fun _ =>
       update_ref i (with_then (Some now)))).
Proof.
  intros Hsend.
  apply (gen_start same_turn (fun _ _ => True) (fun _ => True) same_turn_refl
           same_turn_trans);
    try (intros; reflexivity); try (intros; exact I).
  intros i ev _. apply Hsend.
Qed.

(** Whatever becomes of the robots, a loop that was entered with a list of
    two or more robots ends normally only when the turn budget is used up. *)
Lemma turn_loop_ends_at_budget_only react time depth robots :
  (1 < length robots)%nat ->
  forall n st st',
    _turn (game st) <= max_turns settings ->
    turn_loop settings time (deliver settings react depth) n robots st =
      Ok tt st' ->
    _turn (game st') = max_turns settings.
Proof.
  intros Hlen. induction n as [|n IH]; intros st st' Hle; simpl;
    unfold mbind at 1; unfold M_bind, bind, get_game;
    (replace (1 <? Z.of_nat (length robots)) with true
       by (symmetry; apply Z.ltb_lt; lia));
    simpl; destruct (_turn (game st) <? max_turns settings) eqn:E;
    try discriminate;
    try (intros [= <-]; apply Z.ltb_ge in E; lia).
  apply Z.ltb_lt in E.
  unfold mbind at 1. unfold M_bind, bind, put_game.
  unfold mbind at 1. unfold M_bind, bind.
  set (st0 := {| game := _; sent := _ |}).
  pose proof (same_turn_update_radar (deliver settings react depth) robots
                (same_turn_deliver react depth) st0) as H1.
  destruct (_update_radar _ robots st0) as [[] st1|e st1|st1];
    try discriminate.
  unfold mbind at 1. unfold M_bind, bind.
  pose proof (same_turn_move_robots time robots st1) as H2.
  destruct (_move_robots settings time robots st1) as [[] st2|e st2|st2];
    try discriminate.
  apply IH. unfold same_turn in *. simpl in *. subst st0. simpl in *. lia.
Qed.
End Turn.

(** ** The bound of the turn loop *)

(** A computation that is never cut off. *)
Definition no_cut {A} (m : M A) : Prop := forall st st', m st <> Cut st'.

Lemma no_cut_bind {A B} (m : M A) (k : A -> M B) :
  no_cut m -> (forall a, no_cut (k a)) -> no_cut (m ≫= k).
Proof.
  intros Hm Hk st st'. unfold mbind, M_bind, bind.
  destruct (m st) as [a st1|e st1|st1] eqn:E; [apply Hk|discriminate|].
  by destruct (Hm st st1).
Qed.

Lemma no_cut_ret {A} (a : A) : no_cut (mret a).
Proof. intros st st'. discriminate. Qed.

Lemma no_cut_raise {A} e : no_cut (@raise A e).
Proof. intros st st'. discriminate. Qed.

Lemma no_cut_for_each {X} (l : list X) (body : X -> M unit) :
  (forall x, no_cut (body x)) -> no_cut (for_each l body).
Proof.
  intros Hb. induction l as [|x l IH]; simpl; [apply (no_cut_ret tt)|].
  apply no_cut_bind; auto.
Qed.

Lemma no_cut_robot_ref {maths : Maths} i : no_cut (robot_ref i).
Proof. intros st st'. rewrite robot_ref_eq. by destruct (_ !! i). Qed.

Lemma no_cut_update_ref {maths : Maths} i f : no_cut (update_ref i f).
Proof. intros st st'. rewrite update_ref_eq. by destruct (_ !! i). Qed.

Lemma no_cut_unpack_pair k : no_cut (unpack_pair k ≫= fun _ => mret tt).
Proof.
  apply no_cut_bind; [|intros; apply no_cut_ret].
  destruct k as [s|i]; simpl; [|apply no_cut_raise].
  destruct s as [|a [|b [|c s]]]; try apply no_cut_raise; apply no_cut_ret.
Qed.

Lemma no_cut_get_line_seg {maths : Maths} r now : no_cut (_get_line_seg r now).
Proof.
  intros st st'.
  destruct (get_line_seg_cases r now st) as [[seg ->]|[e ->]]; discriminate.
Qed.

Lemma no_cut_move_robots {maths : Maths} settings time robots :
  no_cut (_move_robots settings time robots).
Proof.
  unfold _move_robots. apply no_cut_bind; [discriminate|]. intros g.
  apply no_cut_bind.
  { generalize (border_segs settings).
    induction robots as [|i rs IH]; intros segs; simpl.
    - apply no_cut_ret.
    - apply no_cut_bind; [apply no_cut_robot_ref|]. intros r.
      apply no_cut_bind; [|intros seg; apply IH].
      apply no_cut_get_line_seg. }
  intros segs. apply no_cut_bind.
  { apply no_cut_for_each. intros [k c]. apply no_cut_unpack_pair. }
  intros _. apply no_cut_bind.
  { apply no_cut_for_each. intros i.
    apply no_cut_bind; [apply no_cut_robot_ref|]. intros r.
    destruct (dict_get _ _); [apply no_cut_update_ref|apply no_cut_raise]. }
  intros _. apply no_cut_for_each. intros k. apply no_cut_unpack_pair.
Qed.

(** The bound that [run_robots] gives the loop is enough: the loop is cut
    off only when the delivery of a notification is. *)
Lemma turn_loop_bound_suffices {maths : Maths} settings time send robots :
  (forall i ev, keeps_rel same_turn (send i ev)) ->
  (forall i ev, no_cut (send i ev)) ->
  forall n st,
    max_turns settings - _turn (game st) <= Z.of_nat n ->
    forall st', turn_loop settings time send n robots st <> Cut st'.
Proof.
  intros Hturn Hcut. induction n as [|n IH]; intros st Hn st'; simpl;
    unfold mbind at 1; unfold M_bind, bind, get_game;
    destruct (1 <? Z.of_nat (length robots)); simpl; try discriminate;
    destruct (_turn (game st) <? max_turns settings) eqn:E;
    try discriminate.
  - apply Z.ltb_lt in E. lia.
  - unfold mbind at 1. unfold M_bind, bind, put_game.
    unfold mbind at 1. unfold M_bind, bind.
    set (st0 := {| game := _; sent := _ |}).
    pose proof (same_turn_update_radar send robots Hturn st0) as H1.
    assert (Hr : no_cut (_update_radar send robots)).
    { unfold _update_radar. apply no_cut_bind; [discriminate|]. intros g.
      apply no_cut_for_each. intros i. apply Hcut. }
    destruct (_update_radar send robots st0) as [[] st1|e st1|st1] eqn:E1;
      [|discriminate|by destruct (Hr st0 st1)].
    unfold mbind at 1. unfold M_bind, bind.
    pose proof (same_turn_move_robots settings time robots st1) as H2.
    destruct (_move_robots settings time robots st1) as [[] st2|e st2|st2]
      eqn:E2;
      [|discriminate
       |by destruct (no_cut_move_robots settings time robots st1 st2)].
    apply IH. unfold same_turn in *. simpl in *. subst st0. simpl in *. lia.
Qed.

(** The doctest of [_get_line_seg]. *)
Example get_line_seg_doctest :
  match _get_line_seg (maths := spec_maths)
          {| instance := {| class_name := "Parrot"; id := 0 |};
             coords := pt 2 2; speed := Fin 5; damage := 0; heading := Fin 0;
             then_ := Some 1%Q |} 2 (on_field []) with
  | Ok (from, (Fin x, Fin y)) _ =>
      from = pt 2 2 /\ (x == 7)%Q /\ (y == 2)%Q
  | _ => False
  end.
Proof. vm_compute. split; [reflexivity|]. split; reflexivity. Qed.

(** Whoever the controllers are and however the run ends, the robots of the
    game remain the same, in the same order: no record is added, removed or
    given another controller or id.  The same holds for the delivery of a
    single notification. *)
Theorem robots_keep_their_identity :
  forall (maths : Maths) (settings : Settings) (react : Controllers)
         (time : Z -> Q) (depth : nat) (st : State),
    map instance (_robots (game (state_of (play settings react time depth st))))
      = map instance (_robots (game st)) /\
    forall receiver ev,
      map instance
          (_robots (game (state_of
             (deliver settings react depth receiver ev st))))
        = map instance (_robots (game st)).
Proof.
  intros maths settings react time depth st.
  split; [|intros receiver ev]; apply (robots_rel_same_field instance).
  - apply (pointwise_play settings _ any_command);
      try (intros; reflexivity); try apply all_commands_any.
    intros x y z. congruence.
  - apply (pointwise_deliver settings _ any_command);
      try (intros; reflexivity); try apply all_commands_any.
    intros x y z. congruence.
Qed.

(** With a peak damage and a falloff that are not negative, no run lowers
    the damage of a robot, whatever the controllers do and however the run
    ends. *)
Theorem damage_never_decreases :
  forall (maths : Maths) (settings : Settings) (react : Controllers)
         (time : Z -> Q) (depth : nat) (st : State),
    0 <= attack_damage settings ->
    (forall p q,
        fle (Fin 0) (get_inverse_square p q (attack_damage settings)) = true) ->
    Forall2 (fun r r' => damage r <= damage r')
            (_robots (game st))
            (_robots (game (state_of (play settings react time depth st)))).
Proof.
  intros maths settings react time depth st Hp Hf.
  apply (pointwise_play settings (fun r r' => damage r <= damage r')
           any_command);
    try (intros; simpl; lia); try apply all_commands_any.
  intros same a r _. simpl.
  pose proof (attack_damage_on_nonneg settings Hp Hf same a r). lia.
Qed.

Lemma damage_never_decreases_witness :
  Forall2 (fun r r' => damage r <= damage r')
    [parrot 2 5 0 0; lumberjack 3 5 0 0]
    (_robots (game (state_of
       (play (maths := open_maths) arena10 striker inject_Z 2
             (on_field [parrot 2 5 0 0; lumberjack 3 5 0 0]))))).
Proof.
  apply (damage_never_decreases open_maths arena10 striker inject_Z 2
           (on_field [parrot 2 5 0 0; lumberjack 3 5 0 0])).
  - vm_compute. discriminate.
  - intros p q. apply spec_inverse_square_nonneg. vm_compute. discriminate.
Defined.

(** While a controller handles a notification, whatever it calls, no robot
    moves: the coordinates and the time stamp of the last move of every
    robot, and the turn counter, are what they were (only [_move_robots] and
    [run_robots] write them). *)
Theorem handling_a_notification_moves_no_robot :
  forall (maths : Maths) (settings : Settings) (react : Controllers)
         (depth : nat) (receiver : nat) (ev : event) (st : State),
    let st' := state_of (deliver settings react depth receiver ev st) in
    map coords (_robots (game st')) = map coords (_robots (game st)) /\
    map then_ (_robots (game st')) = map then_ (_robots (game st)) /\
    _turn (game st') = _turn (game st).
Proof.
  intros maths settings react depth receiver ev st.
  split; [|split].
  - apply (robots_rel_same_field coords).
    apply (pointwise_deliver settings _ any_command);
      try (intros; reflexivity); try apply all_commands_any.
    intros x y z. congruence.
  - apply (robots_rel_same_field then_).
    apply (pointwise_deliver settings _ any_command);
      try (intros; reflexivity); try apply all_commands_any.
    intros x y z. congruence.
  - apply same_turn_deliver.
Qed.

(** ** Accessors *)

(** The headings that [math.degrees] and [int] accept: the numbers whose
    measure in degrees is within the range of the floats. *)
Lemma degrees_accepted rads :
  (exists z, py_int (py_degrees rads) = inr z) <->
  exists q, rads = Fin q /\
            (- float_max <= q * rad_to_deg <= float_max)%Q.
Proof.
  destruct rads as [q| | |]; simpl.
  - unfold norm.
    destruct (Qltb float_max (q * rad_to_deg)) eqn:E1.
    { apply Qltb_true in E1. split.
      - intros [z Hz]. discriminate.
      - intros (q' & [= <-] & H). lra. }
    destruct (Qltb (q * rad_to_deg) (- float_max)) eqn:E2.
    { apply Qltb_true in E2. split.
      - intros [z Hz]. discriminate.
      - intros (q' & [= <-] & H). lra. }
    apply Qltb_false in E1, E2. split; [|by eauto].
    intros _. exists q. split; [reflexivity|]. lra.
  - split; [intros [z Hz]|intros (q & Hq & _)]; discriminate.
  - split; [intros [z Hz]|intros (q & Hq & _)]; discriminate.
  - split; [intros [z Hz]|intros (q & Hq & _)]; discriminate.
Qed.

(** [set_heading] on an id that addresses a robot of the game, from the
    front or, when negative, from the end: the angle is stored as it is
    given, without reducing it to a range, and reading the heading
    afterwards returns it; the other attributes of the robot and every
    other robot read as before, and nothing is sent.  The call then raises
    when the angle cannot be converted to whole degrees: [ValueError] for
    [nan], [OverflowError] for an infinity or a number too large; the
    heading stays stored.  On an id that addresses no robot, [set_heading]
    and the four accessors raise [IndexError] and leave the game alone. *)
Theorem set_heading_then_get_heading :
  forall (st : State) (robot_id : Z) (rads : float),
    match py_index (length (_robots (game st))) robot_id with
    | Some i =>
        exists r st',
          _robots (game st) !! i = Some r /\
          st' = set_robots (<[i := with_heading rads r]> (_robots (game st)))
                           st /\
          set_heading robot_id rads st =
            match py_int (py_degrees rads) with
            | inr _ => Ok tt st'
            | inl e => Raised e st'
            end /\
          (py_int (py_degrees rads) = inl ValueError <-> rads = NaN) /\
          get_heading robot_id st' = Ok rads st' /\
          get_coords robot_id st' = Ok (coords r) st' /\
          get_speed robot_id st' = Ok (speed r) st' /\
          get_damage robot_id st' = Ok (damage r) st' /\
          (forall j, j <> i ->
             _robots (game st') !! j = _robots (game st) !! j) /\
          _turn (game st') = _turn (game st) /\ sent st' = sent st
    | None =>
        (robot_id < - Z.of_nat (length (_robots (game st))) \/
         Z.of_nat (length (_robots (game st))) <= robot_id) /\
        set_heading robot_id rads st = Raised IndexError st /\
        get_heading robot_id st = Raised IndexError st /\
        get_coords robot_id st = Raised IndexError st /\
        get_speed robot_id st = Raised IndexError st /\
        get_damage robot_id st = Raised IndexError st
    end.
Proof.
  intros st robot_id h.
  unfold set_heading, get_heading, get_coords, get_speed, get_damage.
  destruct (py_index (length (_robots (game st))) robot_id) as [i|] eqn:Hi.
  - destruct (py_index_robot _ _ _ Hi) as [r Hr].
    exists r. eexists. split; [exact Hr|]. split; [reflexivity|].
    assert (Hlen : length (<[i := with_heading h r]> (_robots (game st))) =
                   length (_robots (game st))) by apply length_insert.
    split; [|split].
    + unfold mbind at 1. unfold M_bind, bind.
      rewrite set_robot_attr_eq, Hi, Hr.
      unfold mbind at 1. unfold M_bind, bind.
      by destruct (py_int (py_degrees h)).
    + destruct h as [q| | |]; simpl; try (split; congruence).
      unfold norm. destruct (Qltb _ _); [split; discriminate|].
      destruct (Qltb _ _); split; discriminate.
    + rewrite !get_robot_attr_eq. cbn [set_robots game _robots _turn sent].
      rewrite Hlen, Hi.
      rewrite list_lookup_insert_eq by (by eapply lookup_lt_Some).
      repeat split; try reflexivity.
      intros j Hj. by rewrite list_lookup_insert_ne.
  - split.
    { rewrite py_index_spec in Hi.
      destruct (decide _); [discriminate|].
      destruct (decide _); [discriminate|]. lia. }
    unfold mbind at 1. unfold M_bind, bind.
    rewrite set_robot_attr_eq, !get_robot_attr_eq, Hi. by repeat split.
Qed.

(** [set_speed] on a robot of the game: reading the speed afterwards returns
    the smaller of the speed asked for and [max_speed]; of two calls in a
    row the last one decides; and writing back a speed that does not exceed
    [max_speed] stores that very speed. *)
Theorem set_speed_then_get_speed :
  forall (settings : Settings) (st : State) (robot_id : Z) (i : nat)
         (r : Robot) (mps mps' : float),
    py_index (length (_robots (game st))) robot_id = Some i ->
    _robots (game st) !! i = Some r ->
    let top := Fin (max_speed settings) in
    (set_speed settings robot_id mps ≫= fun _ => get_speed robot_id) st =
      Ok (py_min mps top)
         (set_robots (<[i := with_speed (py_min mps top) r]>
                        (_robots (game st))) st) /\
    (set_speed settings robot_id mps ≫= fun _ =>
     set_speed settings robot_id mps') st =
      set_speed settings robot_id mps' st /\
    (fle mps top = true -> py_min mps top = mps).
Proof.
  intros settings st robot_id i r v w Hi Hr top.
  assert (Hlen : length (<[i := with_speed (py_min v top) r]>
                           (_robots (game st))) =
                 length (_robots (game st))) by apply length_insert.
  split; [|split].
  - unfold mbind, M_bind, bind, set_speed, get_speed.
    rewrite set_robot_attr_eq, Hi, Hr, get_robot_attr_eq.
    cbn [set_robots game _robots _turn sent]. fold top. rewrite Hlen, Hi.
    by rewrite list_lookup_insert_eq by (by eapply lookup_lt_Some).
  - unfold mbind, M_bind, bind, set_speed.
    rewrite !set_robot_attr_eq, Hi, Hr. rewrite set_robot_attr_eq.
    cbn [set_robots game _robots _turn sent]. fold top. rewrite Hlen, Hi.
    rewrite list_lookup_insert_eq by (by eapply lookup_lt_Some).
    unfold set_robots. simpl. by rewrite list_insert_insert_eq.
  - intros Hle. unfold py_min. by rewrite (fle_flt_false _ _ Hle).
Qed.

Lemma set_speed_then_get_speed_witness :
  (set_speed arena10 0 (Fin 25) ≫= fun _ => get_speed 0)
    (on_field [parrot 5 5 0 0]) =
  Ok (Fin 10) (on_field [parrot 5 5 10 0]).
Proof.
  destruct (set_speed_then_get_speed arena10 (on_field [parrot 5 5 0 0])
              0 0%nat (parrot 5 5 0 0) (Fin 25) (Fin 0) eq_refl eq_refl)
    as [-> _].
  reflexivity.
Defined.

(** ** Active robots *)

Lemma active_from_lower rs : forall k i, i ∈ active_from k rs -> (k <= i)%nat.
Proof. intros k i H. apply active_from_elem in H as (t & Hk & _). exact Hk. Qed.

Lemma active_from_sorted rs : forall k (i j a b : nat),
  active_from k rs !! i = Some a -> active_from k rs !! j = Some b ->
  (i < j)%nat -> (a < b)%nat.
Proof.
  induction rs as [|r rs IH]; intros k i j a b; simpl; [discriminate|].
  destruct (damage r <? 100); [|apply IH].
  destruct i as [|i], j as [|j]; simpl; try lia.
  - intros [= <-] Hb _.
    assert (Hin : b ∈ active_from (S k) rs)
      by (apply list_elem_of_lookup; eauto).
    apply active_from_lower in Hin. lia.
  - intros Ha Hb Hij. apply (IH (S k) i j); auto. lia.
Qed.

(** [active_robots] leaves the game as it is and returns, in increasing
    order and so without repetition, the robots whose damage is below 100:
    a robot at exactly 100 is not active. *)
Theorem active_robots_are_those_below_100_in_order :
  forall (st : State),
  exists robots : list nat,
    active_robots st = Ok robots st /\
    (forall (i j a b : nat),
        robots !! i = Some a -> robots !! j = Some b ->
        (i < j)%nat -> (a < b)%nat) /\
    (forall i : nat,
        i ∈ robots <->
        exists r, _robots (game st) !! i = Some r /\ damage r < 100).
Proof.
  intros st. exists (active_from 0 (_robots (game st))).
  split; [reflexivity|]. split; [apply active_from_sorted|].
  intros i. rewrite active_from_elem. rewrite Nat.sub_0_r. split.
  - intros (r & _ & Hr & Hd). eauto.
  - intros (r & Hr & Hd). exists r. split; [lia|]. auto.
Qed.

(** ** Crossings *)

Lemma crossings_elem {maths : Maths} line_segs a sa b p :
  (b, p) ∈ crossings line_segs a sa <->
  exists sb, (b, sb) ∈ line_segs /\ seg_id_eqb a b = false /\
             seg_intersect (fst sa) (snd sa) (fst sb) (snd sb) = Some p.
Proof.
  unfold crossings. rewrite list_elem_of_omap. split.
  - intros ([b' sb] & Hin & Hf).
    destruct (seg_id_eqb a b') eqn:E; [discriminate|].
    destruct (seg_intersect _ _ _ _) as [q|] eqn:Hq; [|discriminate].
    injection Hf as <- <-. eauto.
  - intros (sb & Hin & E & Hq). exists (b, sb). split; [exact Hin|].
    by rewrite E, Hq.
Qed.

Lemma get_intersections_elem {maths : Maths} line_segs a found :
  (a, found) ∈ _get_intersections line_segs <->
  exists sa, (a, sa) ∈ line_segs /\ found = crossings line_segs a sa /\
             found <> [].
Proof.
  unfold _get_intersections. rewrite list_elem_of_omap. split.
  - intros ([a' sa] & Hin & Hf).
    destruct (crossings line_segs a' sa) as [|c cs] eqn:E; [discriminate|].
    injection Hf as <- <-. exists sa. by rewrite E.
  - intros (sa & Hin & -> & Hne). exists (a, sa). split; [exact Hin|].
    by destruct (crossings line_segs a sa).
Qed.

(** [_get_intersections] records the point [p] under [a] and [b] exactly
    when [seg_intersect] gives [p] for a segment with key [a] and a segment
    with another key [b]: no segment is tested against itself, no key is
    kept without a crossing, and the result is empty exactly when no two
    segments with different keys meet (in particular for no segment at
    all). *)
Theorem intersections_are_the_crossings_of_distinct_segments :
  forall (maths : Maths) (line_segs : list (seg_id * segment)),
    (forall a b p,
        (exists found, (a, found) ∈ _get_intersections line_segs /\
                       (b, p) ∈ found) <->
        (exists sa sb, (a, sa) ∈ line_segs /\ (b, sb) ∈ line_segs /\
                       seg_id_eqb a b = false /\
                       seg_intersect (fst sa) (snd sa) (fst sb) (snd sb)
                         = Some p)) /\
    (forall a found, (a, found) ∈ _get_intersections line_segs ->
                     found <> []) /\
    (_get_intersections line_segs = [] <->
     forall a sa b sb, (a, sa) ∈ line_segs -> (b, sb) ∈ line_segs ->
                       seg_id_eqb a b = false ->
                       seg_intersect (fst sa) (snd sa) (fst sb) (snd sb)
                         = None).
Proof.
  intros maths line_segs.
  assert (Hchar : forall a b p,
    (exists found, (a, found) ∈ _get_intersections line_segs /\
                   (b, p) ∈ found) <->
    (exists sa sb, (a, sa) ∈ line_segs /\ (b, sb) ∈ line_segs /\
                   seg_id_eqb a b = false /\
                   seg_intersect (fst sa) (snd sa) (fst sb) (snd sb)
                     = Some p)).
  { intros a b p. split.
    - intros (found & Hf & Hbp).
      apply get_intersections_elem in Hf as (sa & Hsa & -> & _).
      apply crossings_elem in Hbp as (sb & Hsb & E & Hq).
      exists sa, sb. auto.
    - intros (sa & sb & Hsa & Hsb & E & Hq).
      exists (crossings line_segs a sa).
      assert (Hbp : (b, p) ∈ crossings line_segs a sa).
      { apply crossings_elem. eauto. }
      split; [|exact Hbp].
      apply get_intersections_elem. exists sa. split; [exact Hsa|].
      split; [reflexivity|]. intros Hnil. rewrite Hnil in Hbp.
      by apply elem_of_nil in Hbp. }
  split; [exact Hchar|]. split.
  - intros a found Hf. by apply get_intersections_elem in Hf as (_ & _ & _ & ?).
  - split.
    + intros Hnil a sa b sb Hsa Hsb E.
      destruct (seg_intersect _ _ _ _) as [p|] eqn:Hq; [|reflexivity].
      destruct (proj2 (Hchar a b p)) as (found & Hf & _); [eauto 10|].
      rewrite Hnil in Hf. by apply elem_of_nil in Hf.
    + intros Hnone.
      destruct (_get_intersections line_segs) as [|[a found] rest] eqn:E;
        [reflexivity|].
      assert (Hin : (a, found) ∈ _get_intersections line_segs)
        by (rewrite E; left).
      apply get_intersections_elem in Hin as (sa & Hsa & -> & Hne).
      destruct (crossings line_segs a sa) as [|[b p] cs] eqn:Hc;
        [congruence|].
      assert (Hbp : (b, p) ∈ crossings line_segs a sa) by (rewrite Hc; left).
      apply crossings_elem in Hbp as (sb & Hsb & Eab & Hq).
      rewrite (Hnone a sa b sb Hsa Hsb Eab) in Hq. discriminate.
Qed.

(** ** The damage of a hit at a distance *)

Lemma trunc_floor x : (0 <= x)%Q -> trunc x = Qfloor x.
Proof.
  destruct x as [n d]. unfold Qle, trunc, Qfloor. simpl. intros H.
  apply Z.quot_div_nonneg; lia.
Qed.

(** For a target that is not at the attacker's coordinates and a peak that
    is not negative: when the falloff is a number that is not negative, the
    damage of a hit is the smaller of the peak and the falloff rounded down,
    so that a falloff below 1 gives no damage at all; when the falloff is
    [inf] or [nan], the damage is the peak. *)
Theorem distant_hit_is_min_of_peak_and_floor_of_falloff :
  forall (maths : Maths) (settings : Settings) (same : bool)
         (attacker target : Robot),
    let falloff := get_inverse_square (coords attacker) (coords target)
                                      (attack_damage settings) in
    0 <= attack_damage settings ->
    coords_eqb same (coords attacker) (coords target) = false ->
    (forall q, falloff = Fin q -> (0 <= q)%Q ->
       attack_damage_on settings same attacker target =
         Z.min (attack_damage settings) (Qfloor q) /\
       ((q < 1)%Q -> attack_damage_on settings same attacker target = 0)) /\
    (falloff = PInf \/ falloff = NaN ->
     attack_damage_on settings same attacker target = attack_damage settings).
Proof.
  intros maths settings same a t falloff Hp Hne. split.
  - intros q Hq Hf.
    assert (Hfloor0 : 0 <= Qfloor q).
    { change 0 with (Qfloor 0). by apply Qfloor_resp_le. }
    assert (Heq : attack_damage_on settings same a t =
                  Z.min (attack_damage settings) (Qfloor q)).
    { unfold attack_damage_on, hit_damage. rewrite Hne. fold falloff.
      rewrite Hq. unfold py_min. simpl.
      destruct (Qltb q (inject_Z (attack_damage settings))) eqn:E; simpl.
      - apply Qltb_true in E. rewrite trunc_floor by exact Hf.
        apply Qlt_le_weak, Qfloor_resp_le in E. rewrite Qfloor_Z in E.
        lia.
      - apply Qltb_false in E. rewrite trunc_inject_Z.
        apply Qfloor_resp_le in E. rewrite Qfloor_Z in E. lia. }
    split; [exact Heq|]. intros Hone. rewrite Heq.
    assert (Qfloor q < 1).
    { rewrite Zlt_Qlt. eapply Qle_lt_trans; [apply Qfloor_le|exact Hone]. }
    lia.
  - intros H. unfold attack_damage_on, hit_damage. rewrite Hne. fold falloff.
    destruct H as [-> | ->]; simpl; apply trunc_inject_Z.
Qed.

Lemma distant_hit_is_min_of_peak_and_floor_of_falloff_witness :
  attack_damage_on (maths := spec_maths) arena10 false
    (parrot 2 5 0 0) (lumberjack 4 5 0 0) = Z.min 30 (Qfloor (30 # 4)) /\
  attack_damage_on (maths := spec_maths) arena10 false
    (parrot 2 5 0 0) (lumberjack 9 5 0 0) = 0.
Proof.
  split.
  - destruct (distant_hit_is_min_of_peak_and_floor_of_falloff spec_maths
                arena10 false (parrot 2 5 0 0) (lumberjack 4 5 0 0))
      as [H _]; [vm_compute; congruence | reflexivity |].
    apply (H (30 # 4)%Q); [reflexivity | vm_compute; congruence].
  - destruct (distant_hit_is_min_of_peak_and_floor_of_falloff spec_maths
                arena10 false (parrot 2 5 0 0) (lumberjack 9 5 0 0))
      as [H _]; [vm_compute; congruence | reflexivity |].
    apply (H (30 # 49)%Q); [reflexivity | vm_compute; congruence | reflexivity].
Defined.

(** ** Construction outside a positive arena *)


(** ** The radar *)

(** What the radar shows: the class name and the coordinates of every
    robot, in the order of the ids. *)
Definition radar_of (g : Game) : list (string * point) :=
  map (fun r => (class_name (instance r), coords r)) (_robots g).

Lemma for_each_passive_send (send : nat -> event -> M unit)
    (ev_of : nat -> event) g :
  (forall i log,
      send i (ev_of i) {| game := g; sent := log |} =
        Ok tt {| game := g; sent := log ++ [(i, ev_of i)] |}) ->
  forall l log,
    for_each l (fun i => send i (ev_of i)) {| game := g; sent := log |} =
      Ok tt {| game := g; sent := log ++ map (fun i => (i, ev_of i)) l |}.
Proof.
  intros Hsend. induction l as [|i l IH]; intros log; simpl.
  - unfold ret. by rewrite app_nil_r.
  - unfold mbind, M_bind, bind. rewrite Hsend, IH.
    by rewrite <- app_assoc.
Qed.

(** When the controllers do nothing on a radar update, [_update_radar]
    sends one "radar_updated" to each robot of the list it is given, in the
    order of the list; each of them carries the class name and the
    coordinates of every robot of the game, destroyed or not; and the game
    is not changed. *)
Theorem radar_shows_every_robot_to_each_listed_robot :
  forall (maths : Maths) (settings : Settings) (react : Controllers)
         (depth : nat) (robots : list nat) (st : State),
    (forall n i radar, react n i (radar_updated radar) = []) ->
    _update_radar (deliver settings react (S depth)) robots st =
      Ok tt {| game := game st;
               sent := sent st ++
                       map (fun i => (i, radar_updated (radar_of (game st))))
                           robots |} /\
    length (radar_of (game st)) = length (_robots (game st)).
Proof.
  intros maths settings react depth robots [g log] Hpassive. split.
  - unfold _update_radar. unfold mbind, M_bind, bind, get_game.
    cbn [game sent].
    apply (for_each_passive_send (deliver settings react (S depth))
             (fun _ => radar_updated (radar_of g)) g).
    intros i log'. simpl. by rewrite Hpassive.
  - unfold radar_of. apply length_map.
Qed.

Lemma radar_shows_every_robot_to_each_listed_robot_witness :
  _update_radar (deliver (maths := spec_maths) arena10 idle 1) [1; 0]%nat
    (on_field [parrot 2 5 0 100; lumberjack 4 5 0 0]) =
  Ok tt
    {| game := {| _turn := 0;
                  _robots := [parrot 2 5 0 100; lumberjack 4 5 0 0] |};
       sent := [ (1%nat, radar_updated [("Parrot", pt 2 5);
                                        ("Lumberjack", pt 4 5)]);
                 (0%nat, radar_updated [("Parrot", pt 2 5);
                                        ("Lumberjack", pt 4 5)]) ] |}.
Proof.
  apply (radar_shows_every_robot_to_each_listed_robot spec_maths arena10 idle
           0 [1; 0]%nat (on_field [parrot 2 5 0 100; lumberjack 4 5 0 0])).
  reflexivity.
Defined.

(** ** An attack without effect *)

Lemma active_from_none rs : forall k,
  Forall (fun r => 100 <= damage r) rs -> active_from k rs = [].
Proof.
  intros k H. revert k.
  induction H as [|r rs Hr _ IH]; intros k; simpl; [reflexivity|].
  destruct (damage r <? 100) eqn:E; [apply Z.ltb_lt in E; lia|apply IH].
Qed.

(** [attack] by an id that addresses no robot, one below minus the number
    of robots or from that number on, raises [IndexError] before anything is
    done; a negative id from minus the number of robots on attacks as the
    robot counted from the end.  [attack] in a game where no robot has a
    damage below 100 returns without a change and without a notification,
    whether or not the attacker itself is destroyed. *)
Theorem attack_without_a_robot_or_without_targets :
  forall (maths : Maths) (settings : Settings)
         (send : nat -> event -> M unit) (st : State) (robot_id : Z),
    let n := Z.of_nat (length (_robots (game st))) in
    (robot_id < - n \/ n <= robot_id ->
     attack settings send robot_id st = Raised IndexError st) /\
    (- n <= robot_id < 0 ->
     attack settings send robot_id st =
       attack settings send (n + robot_id) st) /\
    (- n <= robot_id < n ->
     Forall (fun r => 100 <= damage r) (_robots (game st)) ->
     attack settings send robot_id st = Ok tt st).
Proof.
  intros maths settings send st rid n. rewrite !attack_eq, !py_index_spec.
  fold n. split; [|split].
  - intros H.
    destruct (decide (0 <= rid < n)); [lia|].
    destruct (decide (- n <= rid < 0)); [lia|]. reflexivity.
  - intros H.
    destruct (decide (0 <= rid < n)); [lia|].
    destruct (decide (- n <= rid < 0)); [|lia].
    destruct (decide (0 <= n + rid < n)); [|lia].
    reflexivity.
  - intros H Hall. rewrite (active_from_none _ _ Hall).
    destruct (decide (0 <= rid < n)); [reflexivity|].
    destruct (decide (- n <= rid < 0)); [reflexivity|lia].
Qed.

Lemma attack_without_a_robot_or_without_targets_witness :
  attack (maths := spec_maths) arena10
         (deliver (maths := spec_maths) arena10 idle 1) 2
         (on_field [parrot 2 5 0 0; lumberjack 3 5 0 0]) =
    Raised IndexError (on_field [parrot 2 5 0 0; lumberjack 3 5 0 0]) /\
  attack (maths := spec_maths) arena10
         (deliver (maths := spec_maths) arena10 idle 1) (-1)
         (on_field [parrot 2 5 0 0; lumberjack 3 5 0 0]) =
    attack (maths := spec_maths) arena10
         (deliver (maths := spec_maths) arena10 idle 1) (2 + -1)
         (on_field [parrot 2 5 0 0; lumberjack 3 5 0 0]) /\
  attack (maths := spec_maths) arena10
         (deliver (maths := spec_maths) arena10 idle 1) (-2)
         (on_field [parrot 2 5 0 120; lumberjack 3 5 0 100]) =
    Ok tt (on_field [parrot 2 5 0 120; lumberjack 3 5 0 100]).
Proof.
  split; [|split].
  - destruct (attack_without_a_robot_or_without_targets spec_maths arena10
               (deliver (maths := spec_maths) arena10 idle 1)
               (on_field [parrot 2 5 0 0; lumberjack 3 5 0 0]) 2)
      as (H & _ & _).
    apply H. simpl. lia.
  - destruct (attack_without_a_robot_or_without_targets spec_maths arena10
               (deliver (maths := spec_maths) arena10 idle 1)
               (on_field [parrot 2 5 0 0; lumberjack 3 5 0 0]) (-1))
      as (_ & H & _).
    apply H. simpl. lia.
  - destruct (attack_without_a_robot_or_without_targets spec_maths arena10
               (deliver (maths := spec_maths) arena10 idle 1)
               (on_field [parrot 2 5 0 120; lumberjack 3 5 0 100]) (-2))
      as (_ & _ & H).
    apply H.
    + simpl. lia.
    + repeat constructor; vm_compute; discriminate.
Defined.

(** ** The turn counter within its budget *)

(** The turn counter did not decrease and is at most [max_turns], unless it
    was beyond it from the start. *)
Definition within_budget (settings : Settings) (st st' : State) : Prop :=
  _turn (game st) <= _turn (game st') /\
  _turn (game st') <= Z.max (_turn (game st)) (max_turns settings).

Lemma within_budget_same_turn settings st st' :
  same_turn st st' -> within_budget settings st st'.
Proof. unfold same_turn, within_budget. lia. Qed.

Lemma within_budget_trans settings a b c :
  within_budget settings a b -> within_budget settings b c ->
  within_budget settings a c.
Proof. unfold within_budget. lia. Qed.

Lemma turn_loop_within_budget {maths : Maths} settings react time depth robots :
  forall n st,
    within_budget settings st
      (state_of (turn_loop settings time (deliver settings react depth)
                           n robots st)).
Proof.
  induction n as [|n IH]; intros st; simpl;
    unfold mbind at 1; unfold M_bind, bind, get_game;
    destruct (1 <? Z.of_nat (length robots)); simpl;
    try (apply within_budget_same_turn; reflexivity);
    destruct (_turn (game st) <? max_turns settings) eqn:E;
    try (apply within_budget_same_turn; reflexivity).
  apply Z.ltb_lt in E.
  unfold mbind at 1. unfold M_bind, bind, put_game.
  unfold mbind at 1. unfold M_bind, bind.
  set (st0 := {| game := _; sent := _ |}).
  assert (H0 : _turn (game st0) = _turn (game st) + 1) by reflexivity.
  pose proof (same_turn_update_radar (deliver settings react depth) robots
                (same_turn_deliver settings react depth) st0) as H1.
  destruct (_update_radar _ robots st0) as [[] st1|e st1|st1];
    [|unfold same_turn, within_budget in *; simpl in *; lia..].
  unfold mbind at 1. unfold M_bind, bind.
  pose proof (same_turn_move_robots settings time robots st1) as H2.
  destruct (_move_robots settings time robots st1) as [[] st2|e st2|st2];
    [|unfold same_turn, within_budget in *; simpl in *; lia..].
  specialize (IH st2).
  unfold same_turn, within_budget in *. simpl in *. lia.
Qed.

(** Over a run, whatever the controllers do and however it ends, the turn
    counter never decreases and never passes [max_turns] (unless it was
    already beyond it when the run began). *)
Theorem turn_counter_stays_within_max_turns :
  forall (maths : Maths) (settings : Settings) (react : Controllers)
         (time : Z -> Q) (depth : nat) (st : State),
    let st' := state_of (play settings react time depth st) in
    _turn (game st) <= _turn (game st') /\
    _turn (game st') <= Z.max (_turn (game st)) (max_turns settings).
Proof.
  intros maths settings react time depth st.
  change (within_budget settings st
            (state_of (play settings react time depth st))).
  revert st. change (keeps_rel (within_budget settings)
                       (play settings react time depth)).
  assert (Hrefl : forall s, within_budget settings s s).
  { intros s. apply within_budget_same_turn. reflexivity. }
  assert (Hsame : forall A (m : M A),
             keeps_rel same_turn m -> keeps_rel (within_budget settings) m).
  { intros A m Hm s. apply within_budget_same_turn, Hm. }
  unfold play, run, run_robots.
  apply (keeps_rel_bind _ (within_budget_trans settings)).
  - apply (keeps_rel_bind _ (within_budget_trans settings));
      [intros s; apply Hrefl|]. intros g.
    apply (keeps_rel_bind _ (within_budget_trans settings)).
    + apply Hsame. apply same_turn_start. apply same_turn_deliver.
    + intros _.
      apply (keeps_rel_bind _ (within_budget_trans settings));
        [intros s; apply Hrefl|]. intros robots s.
      apply turn_loop_within_budget.
  - intros _.
    apply (keeps_rel_bind _ (within_budget_trans settings));
      [intros s; apply Hrefl|]. intros g s. apply Hrefl.
Qed.

(** ** The start of a run *)

Section Start.
Context {maths : Maths} (settings : Settings).
Variable time : Z -> Q.
Variable send : nat -> event -> M unit.
Hypothesis send_started : forall i c st,
  send i (started c) st =
    Ok tt {| game := game st; sent := sent st ++ [(i, started c)] |}.

(** The first loop of [run_robots], from robot [length pre] on. *)
Lemma start_loop now turn : forall suf pre log,
  for_each (seq (length pre) (length suf))
    (fun i => robot_ref i ≫= fun r =>
              send i (started (coords r)) ≫= fun _ =>
              update_ref i (with_then (Some now)))
    {| game := {| _turn := turn; _robots := pre ++ suf |}; sent := log |} =
  Ok tt
     {| game := {| _turn := turn;
                   _robots := pre ++ map (with_then (Some now)) suf |};
        sent := log ++ imap (fun j r => ((length pre + j)%nat,
                                         started (coords r))) suf |}.
Proof.
  induction suf as [|r suf IH]; intros pre log.
  - cbn [length seq for_each map imap]. unfold ret. by rewrite !app_nil_r.
  - cbn [length seq for_each].
    unfold mbind at 1. unfold M_bind, bind at 1.
    unfold mbind at 1. unfold M_bind, bind at 1.
    rewrite robot_ref_eq. cbn [game _robots].
    rewrite list_lookup_middle by reflexivity.
    unfold mbind at 1. unfold M_bind, bind at 1.
    rewrite send_started. cbn [game sent].
    rewrite update_ref_eq. cbn [game _robots].
    rewrite list_lookup_middle by reflexivity.
    unfold set_robots. cbn [game _robots _turn sent].
    rewrite insert_app_r_alt by lia. rewrite Nat.sub_diag.
    cbn [insert list_insert].
    specialize (IH (pre ++ [with_then (Some now) r])
                   (log ++ [(length pre, started (coords r))])).
    rewrite length_app in IH. cbn [length] in IH.
    rewrite Nat.add_1_r in IH. rewrite <- !app_assoc in IH.
    change (pre ++ [with_then (Some now) r] ++ suf)
      with (pre ++ with_then (Some now) r :: suf) in IH.
    etransitivity; [exact IH|].
    do 2 f_equal. cbn [imap map app]. rewrite Nat.add_0_r. do 2 f_equal.
    apply imap_ext. intros j x _. simpl. do 2 f_equal. lia.
Qed.
End Start.

Lemma active_from_with_then t rs : forall k,
  active_from k (map (with_then t) rs) = active_from k rs.
Proof.
  induction rs as [|r rs IH]; intros k; simpl; [reflexivity|].
  by rewrite IH.
Qed.

Lemma winners_with_then t rs :
  map winner_of
      (List.filter (fun r => damage r <? 100) (map (with_then t) rs)) =
  map winner_of (List.filter (fun r => damage r <? 100) rs).
Proof.
  induction rs as [|r rs IH]; simpl; [reflexivity|].
  destruct (damage r <? 100); simpl; by rewrite IH.
Qed.

Lemma active_count rs : forall k,
  length (List.filter (fun r => damage r <? 100) rs) =
  length (active_from k rs).
Proof.
  induction rs as [|r rs IH]; intros k; simpl; [reflexivity|].
  destruct (damage r <? 100); simpl; by rewrite (IH (S k)).
Qed.

(** A loop that is entered with a list of one robot at most plays no
    turn. *)
Lemma turn_loop_few {maths : Maths} settings time send n robots st :
  (length robots <= 1)%nat ->
  turn_loop settings time send n robots st = Ok tt st.
Proof.
  intros Hlen.
  assert (H : (1 <? Z.of_nat (length robots)) = false)
    by (apply Z.ltb_ge; lia).
  destruct n; simpl; unfold mbind, M_bind, bind, get_game; by rewrite H.
Qed.

(** A run of a game in which at most one robot is active, the controllers
    doing nothing when they are told that the game started.  Every robot,
    destroyed or not, receives one "started" notification with its
    coordinates, in the order of the ids, and the time stamp of its last
    move is set to the time of the start; no turn is played, whatever
    [max_turns] is; and the winners are the active robots, so that there is
    one winner at most. *)
Theorem run_with_at_most_one_active_robot_plays_no_turn :
  forall (maths : Maths) (settings : Settings) (react : Controllers)
         (time : Z -> Q) (depth : nat) (st : State),
    (forall n i c, react n i (started c) = []) ->
    (length (active_from 0 (_robots (game st))) <= 1)%nat ->
    play settings react time (S depth) st =
      Ok (map winner_of
              (List.filter (fun r => damage r <? 100) (_robots (game st))))
         {| game :=
              {| _turn := _turn (game st);
                 _robots := map (with_then (Some (time (_turn (game st)))))
                                (_robots (game st)) |};
            sent := sent st ++
                    imap (fun i r => (i, started (coords r)))
                         (_robots (game st)) |} /\
    (length (List.filter (fun r => (damage r <? 100)%Z) (_robots (game st)))
     <= 1)%nat.
Proof.
  intros maths settings react time depth [[turn rs] log] Hpassive Hone.
  cbn [game _robots _turn sent] in *. unfold play.
  assert (Hsend : forall i c st,
             deliver settings react (S depth) i (started c) st =
               Ok tt {| game := game st;
                        sent := sent st ++ [(i, started c)] |}).
  { intros i c st. simpl. by rewrite Hpassive. }
  revert Hsend. generalize (deliver settings react (S depth)).
  intros send Hsend. split.
  - unfold run, run_robots.
    unfold mbind at 1. unfold M_bind, bind at 1.
    unfold mbind at 1. unfold M_bind, bind at 1.
    unfold get_game at 1. cbn [game _robots _turn].
    unfold mbind at 1. unfold M_bind, bind at 1.
    pose proof (start_loop send Hsend (time turn) turn rs [] log) as Hloop.
    cbn [length app] in Hloop. unfold M_bind in Hloop. rewrite Hloop.
    unfold mbind at 1. unfold M_bind, bind at 1.
    unfold active_robots. unfold mbind at 1. unfold M_bind, bind at 1.
    unfold get_game at 1. cbn [game _robots]. unfold mret at 1.
    unfold M_ret, ret at 1. rewrite active_from_with_then.
    rewrite turn_loop_few by exact Hone.
    unfold mbind at 1. unfold M_bind, bind at 1. unfold get_game at 1.
    cbn [game _robots]. unfold mret, M_ret, ret.
    by rewrite winners_with_then.
  - by rewrite (active_count rs 0).
Qed.

Lemma run_with_at_most_one_active_robot_plays_no_turn_witness :
  play (maths := spec_maths) arena10 idle inject_Z 1
       (on_field [parrot 2 5 0 120; lumberjack 4 5 0 28]) =
    Ok ["Lumberjack (damage 28)"]
       {| game := {| _turn := 0;
                     _robots := [parrot 2 5 0 120; lumberjack 4 5 0 28] |};
          sent := [(0%nat, started (pt 2 5)); (1%nat, started (pt 4 5))] |}.
Proof.
  apply (run_with_at_most_one_active_robot_plays_no_turn spec_maths arena10
           idle inject_Z 0 (on_field [parrot 2 5 0 120; lumberjack 4 5 0 28])).
  - reflexivity.
  - vm_compute. lia.
Defined.

(** ** A game with a single robot *)

(** The turn counter and the controllers of two states are the same. *)
Definition same_cast (st st' : State) : Prop :=
  _turn (game st') = _turn (game st) /\
  map instance (_robots (game st')) = map instance (_robots (game st)).

Lemma same_cast_refl st : same_cast st st.
Proof. by split. Qed.

Lemma same_cast_trans a b c : same_cast a b -> same_cast b c -> same_cast a c.
Proof. unfold same_cast. intros [-> ->] [-> ->]. by split. Qed.

Lemma same_cast_update st i r r' :
  _robots (game st) !! i = Some r -> instance r' = instance r ->
  same_cast st (set_robots (<[i := r']> (_robots (game st))) st).
Proof.
  intros Hi Hr. split; [reflexivity|]. simpl.
  change (map instance ?l) with (instance <$> l).
  rewrite list_fmap_insert, Hr. apply list_insert_id.
  by rewrite list_lookup_fmap, Hi.
Qed.

Lemma active_from_length rs : forall k,
  (length (active_from k rs) <= length rs)%nat.
Proof.
  induction rs as [|r rs IH]; intros k; simpl; [lia|].
  destruct (damage r <? 100); simpl; specialize (IH (S k)); lia.
Qed.

(** The winners that [run] returns are the robots that are active when it
    returns. *)
Lemma run_winners {maths : Maths} settings time send st winners st' :
  run settings time send st = Ok winners st' ->
  winners = map winner_of
              (List.filter (fun r => damage r <? 100) (_robots (game st'))).
Proof.
  unfold run. unfold mbind, M_bind, bind.
  destruct (run_robots settings time send st) as [[] st1|e st1|st1];
    [|discriminate..].
  unfold get_game, mret, M_ret, ret. by intros [= <- <-].
Qed.

(** A run of a game with one robot at most plays no turn and keeps the
    controllers, whatever they do. *)
Lemma run_of_few {maths : Maths} settings react time depth st :
  (length (_robots (game st)) <= 1)%nat ->
  same_cast st (state_of (play settings react time depth st)).
Proof.
  intros Hlen. unfold play, run, run_robots.
  unfold mbind at 1. unfold M_bind, bind at 1.
  unfold mbind at 1. unfold M_bind, bind at 1.
  unfold get_game at 1.
  unfold mbind at 1. unfold M_bind, bind at 1.
  set (start := for_each _ _).
  assert (Hstart : keeps_rel same_cast start).
  { apply (gen_start same_cast (fun r r' => instance r' = instance r)
             (fun _ => True) same_cast_refl same_cast_trans);
      try (intros; reflexivity); try (intros; exact I).
    - intros. by eapply same_cast_update.
    - intros i ev _.
      apply (gen_deliver settings same_cast
               (fun r r' => instance r' = instance r) (fun _ => True)
               any_command same_cast_refl same_cast_trans);
        try (intros; reflexivity); try (intros; exact I).
      + intros. by eapply same_cast_update.
      + intros s j ev' _. by split.
      + apply all_commands_any. }
  specialize (Hstart st).
  destruct (start st) as [[] st1|e st1|st1]; simpl in *; try exact Hstart.
  unfold mbind at 1. unfold M_bind, bind at 1.
  unfold active_robots. unfold mbind at 1. unfold M_bind, bind at 1.
  unfold get_game at 1. unfold mret at 1. unfold M_ret, ret at 1.
  rewrite turn_loop_few; [exact Hstart|].
  etransitivity; [apply active_from_length|].
  destruct Hstart as [_ Hsame].
  apply (f_equal length) in Hsame. rewrite !length_map in Hsame. lia.
Qed.

(** A command on a game of [n] robots that is not an attack, addresses a
    robot of the game and, when it sets a heading, gives one that can be
    converted to degrees. *)
Definition tame (n : nat) (c : command) : Prop :=
  match c with
  | SetHeading j h =>
      is_Some (py_index n j) /\ exists z, py_int (py_degrees h) = inr z
  | SetSpeed j _ => is_Some (py_index n j)
  | Attack _ => False
  | Get _ j => is_Some (py_index n j)
  end.

Lemma py_index_single j i : py_index 1 j = Some i -> i = 0%nat.
Proof. intros H. apply py_index_lt in H. lia. Qed.

Lemma tame_single {maths : Maths} settings send cmds :
  Forall (tame 1) cmds ->
  forall turn r log,
  exists r',
    for_each cmds (perform settings send)
        {| game := {| _turn := turn; _robots := [r] |}; sent := log |} =
      Ok tt {| game := {| _turn := turn; _robots := [r'] |}; sent := log |} /\
    damage r' = damage r /\ instance r' = instance r /\ coords r' = coords r.
Proof.
  induction 1 as [|c cmds Hc _ IH]; intros turn r log.
  - exists r. by repeat split.
  - simpl. unfold mbind, M_bind, bind.
    destruct c as [j h|j v|j|a j]; simpl in Hc.
    + destruct Hc as [[i Hi] [z Hz]].
      pose proof (py_index_single j i Hi) as ->.
      unfold perform, set_heading. unfold mbind, M_bind, bind.
      rewrite set_robot_attr_eq. cbn [game _robots length]. rewrite Hi, Hz.
      destruct (IH turn (with_heading h r) log) as (r' & Hrun & Hd & Hi' & Hc).
      exists r'. split; [exact Hrun | by repeat split].
    + destruct Hc as [i Hi].
      pose proof (py_index_single j i Hi) as ->.
      unfold perform, set_speed. rewrite set_robot_attr_eq.
      cbn [game _robots length]. rewrite Hi.
      destruct (IH turn (with_speed (py_min v (Fin (max_speed settings))) r)
                   log) as (r' & Hrun & Hd & Hi' & Hc).
      exists r'. split; [exact Hrun | by repeat split].
    + destruct Hc.
    + destruct Hc as [i Hi].
      pose proof (py_index_single j i Hi) as ->.
      destruct (IH turn r log) as (r' & Hrun & Hd & Hi' & Hc).
      exists r'. split; [|by repeat split].
      destruct a; unfold perform, get_coords, get_damage, get_heading,
        get_speed; unfold mbind, M_bind, bind;
        rewrite get_robot_attr_eq; cbn [game _robots length]; rewrite Hi;
        exact Hrun.
Qed.

Lemma init_single settings cls draws g :
  init settings [cls] draws = Some g ->
  exists r, g = {| _turn := 0; _robots := [r] |} /\ damage r = 0 /\
            instance r = {| class_name := cls; id := 0 |}.
Proof.
  unfold init. simpl. destruct (battlefield_size settings) as [x_max y_max].
  destruct (randrange _ 0 x_max) as [x|]; [|discriminate]. simpl.
  destruct (randrange _ 0 y_max) as [y|]; [|discriminate]. simpl.
  intros [= <-]. eexists. split; [reflexivity|]. split; reflexivity.
Qed.

(** C9, as the code has it: a game built from a single robot class.
    Whatever the controller does and however the run ends, no turn is
    played: the turn counter stays at 0.  When the run returns, the robot is
    the one winner if its damage is still below 100, and the message is the
    one for a single survivor, naming it and its damage; otherwise there is
    no winner.  When the controller, told that the game started, only reads
    and steers its own robot, with headings that can be converted to
    degrees, the run returns: the robot received its "started" notification
    only, and it is the one winner, with damage 0. *)
Theorem single_robot_wins_at_turn_zero :
  forall (maths : Maths) (settings : Settings) (react : Controllers)
         (time : Z -> Q) (depth : nat) (cls : string) (draws : list Z)
         (g : Game),
    init settings [cls] draws = Some g ->
    _turn (game (state_of
       (play settings react time depth {| game := g; sent := [] |}))) = 0 /\
    (forall winners st',
        play settings react time depth {| game := g; sent := [] |} =
          Ok winners st' ->
        exists r',
          _robots (game st') = [r'] /\
          class_name (instance r') = cls /\
          if damage r' <? 100
          then winners = [cls +:+ " (damage " +:+ str_of_Z (damage r') +:+ ")"]
               /\ outcome_message winners =
                    "The winner is " +:+ cls +:+ " (damage "
                      +:+ str_of_Z (damage r') +:+ ")"
          else winners = []
               /\ outcome_message winners = "All robots were destroyed") /\
    ((forall ev, Forall (tame 1) (react 0%nat 0%nat ev)) ->
     exists st' r,
       _robots g = [r] /\
       play settings react time (S depth) {| game := g; sent := [] |} =
         Ok [cls +:+ " (damage 0)"] st' /\
       _turn (game st') = 0 /\
       sent st' = [(0%nat, started (coords r))] /\
       outcome_message [cls +:+ " (damage 0)"] =
         "The winner is " +:+ cls +:+ " (damage 0)").
Proof.
  intros maths settings react time depth cls draws g Hinit.
  destruct (init_single settings cls draws g Hinit) as (r & -> & Hd & Hi).
  split; [|split].
  - destruct (run_of_few settings react time depth
                {| game := {| _turn := 0; _robots := [r] |}; sent := [] |})
      as [Hturn _]; [simpl; lia|].
    exact Hturn.
  - intros winners st' Hrun.
    destruct (run_of_few settings react time depth
                {| game := {| _turn := 0; _robots := [r] |}; sent := [] |})
      as [_ Hcast]; [simpl; lia|].
    rewrite Hrun in Hcast. cbn [state_of game _robots map] in Hcast.
    destruct (_robots (game st')) as [|r' [|r'' rs]] eqn:Hrs;
      try discriminate.
    injection Hcast as Hcast.
    exists r'. split; [reflexivity|].
    assert (Hcls : class_name (instance r') = cls)
      by by rewrite Hcast, Hi.
    split; [exact Hcls|].
    apply run_winners in Hrun. rewrite Hrs in Hrun. cbn [List.filter] in Hrun.
    destruct (damage r' <? 100); cbn [map] in Hrun; subst winners.
    + unfold winner_of. rewrite Hcls. split; reflexivity.
    + split; reflexivity.
  - intros Htame.
    destruct (tame_single settings (deliver settings react depth)
                (react 0%nat 0%nat (started (coords r)))
                (Htame _) 0 r [(0%nat, started (coords r))])
      as (r' & Hrun & Hd' & Hi' & Hc').
    eexists. exists r. split; [reflexivity|].
    unfold play, run, run_robots.
    unfold mbind at 1. unfold M_bind, bind at 1.
    unfold mbind at 1. unfold M_bind, bind at 1.
    unfold get_game at 1. cbn [game _robots _turn length seq for_each].
    unfold mbind at 1. unfold M_bind, bind at 1.
    unfold mbind at 1. unfold M_bind, bind at 1.
    unfold mbind at 1. unfold M_bind, bind at 1.
    rewrite robot_ref_eq. cbn [game _robots lookup list_lookup].
    unfold mbind at 1. unfold M_bind, bind at 1.
    cbn [deliver sent length app game]. rewrite Hrun.
    rewrite update_ref_eq. cbn [game _robots lookup list_lookup].
    unfold set_robots. cbn [game _robots _turn sent insert list_insert].
    unfold mret at 1. unfold M_ret, ret at 1.
    unfold mbind at 1. unfold M_bind, bind at 1.
    unfold active_robots. unfold mbind at 1. unfold M_bind, bind at 1.
    unfold get_game at 1. cbn [game _robots].
    unfold mret at 1. unfold M_ret, ret at 1.
    rewrite turn_loop_few by apply (active_from_length [_] 0).
    unfold mbind at 1. unfold M_bind, bind at 1.
    unfold get_game at 1. cbn [game _robots List.filter damage with_then].
    rewrite Hd', Hd. cbn [Z.ltb Z.compare map].
    unfold winner_of. cbn [instance damage with_then]. rewrite Hi', Hi, Hd', Hd.
    cbn [class_name].
    split; [reflexivity|]. split; [reflexivity|]. split; reflexivity.
Qed.

(** The game that [Game.__init__] builds from the class "Parrot" with the
    draws 3 and 6. *)
Definition lone : Game :=
  {| _turn := 0; _robots := [with_then None (parrot 3 6 0 0)] |}.

Lemma single_robot_wins_at_turn_zero_witness :
  exists st' r,
    _robots lone = [r] /\
    play (maths := spec_maths) arena10
         (fun _ _ _ => [Get Coords 0; SetHeading (-1) (Fin 1);
                        SetSpeed 0 (Fin 4)])
         inject_Z 1 {| game := lone; sent := [] |} =
      Ok ["Parrot" +:+ " (damage 0)"] st' /\
    _turn (game st') = 0 /\
    sent st' = [(0%nat, started (coords r))] /\
    outcome_message ["Parrot" +:+ " (damage 0)"] =
      "The winner is " +:+ "Parrot" +:+ " (damage 0)".
Proof.
  destruct (single_robot_wins_at_turn_zero spec_maths arena10
              (fun _ _ _ => [Get Coords 0; SetHeading (-1) (Fin 1);
                             SetSpeed 0 (Fin 4)])
              inject_Z 0 "Parrot" [3; 6] lone eq_refl) as (_ & _ & H).
  apply H. intros ev. repeat constructor; simpl; eauto.
Defined.

(** C9 fails as stated.  A controller that reads robot 1, which is not in
    the game, or sets the heading [nan], makes the run raise, and there is
    no winner; a controller that attacks four times destroys its own robot,
    which stands in its own cone at point-blank range, and the run returns
    no winner. *)
Lemma single_robot_run_has_no_winner :
  init arena10 ["Parrot"] [3; 6] = Some lone /\
  play (maths := spec_maths) arena10 (fun _ _ _ => [Get Damage 1]) inject_Z 1
       {| game := lone; sent := [] |} =
    Raised IndexError
      {| game := lone; sent := [(0%nat, started (pt 3 6))] |} /\
  play (maths := spec_maths) arena10 (fun _ _ _ => [SetHeading 0 NaN])
       inject_Z 1 {| game := lone; sent := [] |} =
    Raised ValueError
      {| game := {| _turn := 0;
                    _robots := [with_heading NaN
                                  (with_then None (parrot 3 6 0 0))] |};
         sent := [(0%nat, started (pt 3 6))] |} /\
  (exists st',
     play (maths := spec_maths) arena10
          (fun n _ _ => if (n =? 0)%nat
                        then [Attack 0; Attack 0; Attack 0; Attack 0] else [])
          inject_Z 2 {| game := lone; sent := [] |} = Ok [] st' /\
     map damage (_robots (game st')) = [120] /\
     _turn (game st') = 0 /\
     outcome_message [] = "All robots were destroyed").
Proof.
  split; [reflexivity|]. split; [reflexivity|]. split; [reflexivity|].
  eexists. split; [reflexivity|]. repeat split.
Qed.

(** ** A move without a collision *)





Section FreeMove.
Context {maths : Maths} (settings : Settings).





End FreeMove.

(** ** The list of robots that the turn loop tests *)




(** A battlefield on which one hit at close range destroys a robot. *)
Definition lethal : Settings := {|
  battlefield_size := (10, 10);
  max_speed := 10;
  attack_angle := 1;
  attack_damage := 100;
  max_turns := 3;
  radar_interval := 100
|}.

(** The game that [Game.__init__] builds from the classes "Parrot" and
    "Lumberjack" with the draws 2, 5 and 3, 5. *)
Definition duel : Game :=
  {| _turn := 0;
     _robots := [with_then None (parrot 2 5 0 0);
                 with_then None (lumberjack 3 5 0 0)] |}.




(** With the closed segment test of the spec the borders meet at the
    corners: the duel ends in its first turn with the exception of line 191,
    both robots destroyed. *)
Example duel_aborts_in_turn_one_under_the_closed_test :
  match play (maths := spec_maths) lethal ambusher clock2 2
             {| game := duel; sent := [] |} with
  | Raised e st =>
      e = ValueError /\ _turn (game st) = 1 /\
      map damage (_robots (game st)) = [100; 100] /\
      active_from 0 (_robots (game st)) = []
  | _ => False
  end.
Proof. vm_compute. by repeat split. Qed.

(** With a segment test under which the borders and two robots at rest do
    not meet, the duel plays every turn that [max_turns] allows, the last
    two with no active robot, and has no winner. *)
Example duel_plays_every_turn_under_an_open_test :
  match play (maths := open_maths) lethal ambusher clock2 2
             {| game := duel; sent := [] |} with
  | Ok winners st =>
      winners = [] /\ _turn (game st) = max_turns lethal /\
      map damage (_robots (game st)) = [100; 100] /\
      length (List.filter (fun '(_, ev) =>
                             match ev with radar_updated _ => true
                                         | _ => false end)
                          (sent st)) = 6%nat
  | _ => False
  end.
Proof. vm_compute. by repeat split. Qed.
